(** * Project-portfolio optimisation (0/1 knapsack): four solvers

    Shallow embedding of [gspython.py]: the greedy ratio heuristic, the
    pure recursion, the top-down memoised recursion and the bottom-up
    table with its backtracking reconstruction, followed by the
    properties the specification states about them.

    Python integers are unbounded, so [value], [hours], capacities and
    table cells are [Z].  Python exceptions are values of [exn]; a
    function that can raise returns [result A = exn + A]. *)

From Stdlib Require Import ZArith QArith Lia Sorted.
From stdpp Require Import gmap strings list.

Local Open Scope Z_scope.

(** ** Data model *)

(** [@dataclass(frozen=True) class Project] *)
Record Project : Type := mkProject {
  name : string;
  value : Z;
  hours : Z
}.

Definition total_value (l : list Project) : Z := foldr (fun p acc => value p + acc) 0 l.
Definition total_hours (l : list Project) : Z := foldr (fun p acc => hours p + acc) 0 l.

(** ** Exceptions *)

Inductive exn : Type :=
| ZeroDivisionError
| IndexError.

Definition result (A : Type) : Type := (exn + A)%type.

Definition bind {A B : Type} (m : result A) (k : A -> result B) : result B :=
  match m with
  | inl e => inl e
  | inr a => k a
  end.

Notation "'let*' x ':=' m 'in' k" := (bind m (fun x => k))
  (at level 10, x name, m at level 100, k at level 200).

(** A [for] loop whose body may raise: the state is threaded through the
    items in order and the first exception ends the loop. *)
Fixpoint for_each {A B : Type} (body : A -> B -> result A) (items : list B) (st : A)
  : result A :=
  match items with
  | [] => inr st
  | x :: rest => let* st' := body st x in for_each body rest st'
  end.

(** ** Python lists indexed by an integer *)

(** [l[z]]: a negative index counts from the end, anything outside
    [-len .. len-1] raises [IndexError]. *)
Definition py_index {A : Type} (l : list A) (z : Z) : result nat :=
  let len := Z.of_nat (length l) in
  if (0 <=? z) && (z <? len) then inr (Z.to_nat z)
  else if (z <? 0) && (- len <=? z) then inr (Z.to_nat (len + z))
  else inl IndexError.

Definition py_get {A : Type} (l : list A) (z : Z) : result A :=
  let* i := py_index l z in
  match l !! i with
  | Some a => inr a
  | None => inl IndexError
  end.

Definition py_set {A : Type} (l : list A) (z : Z) (a : A) : result (list A) :=
  let* i := py_index l z in inr (<[i := a]> l).

(** [range(a, b)] and [range(a, b, -1)] *)
Definition range (a b : Z) : list Z :=
  map (fun k => a + Z.of_nat k) (seq 0 (Z.to_nat (b - a))).

Definition range_down (a b : Z) : list Z :=
  map (fun k => a - Z.of_nat k) (seq 0 (Z.to_nat (a - b))).

(** ** Greedy selector *)

Section Greedy.
(** The sort key of the source is the float [p.value / p.hours].  The
    selector is written over any key type [K] with its strict order
    [klt]; [greedy_knapsack] below takes the exact quotient. *)
Context {K : Type} (key : Project -> result K) (klt : K -> K -> bool).

(** [sorted] first computes the key of every element, in list order. *)
Fixpoint keyed (ps : list Project) : result (list (K * Project)) :=
  match ps with
  | [] => inr []
  | p :: rest => let* k := key p in let* krest := keyed rest in inr ((k, p) :: krest)
  end.

(** [sorted(..., reverse=True)] is stable: among equal keys the
    original order is kept, larger keys come first. *)
Fixpoint insert_desc (x : K * Project) (l : list (K * Project)) : list (K * Project) :=
  match l with
  | [] => [x]
  | y :: l' => if klt (fst x) (fst y) then y :: insert_desc x l' else x :: l
  end.

Definition sorted_desc (kps : list (K * Project)) : list (K * Project) :=
  foldr insert_desc [] kps.

(** Loop state: [(total_value, chosen, remaining)]. *)
Definition greedy_step (st : Z * list Project * Z) (p : Project) : Z * list Project * Z :=
  let '(total, chosen, remaining) := st in
  if hours p <=? remaining
  then (total + value p, chosen ++ [p], remaining - hours p)
  else st.

Definition greedy_scan (sorted_projects : list Project) (capacity : Z)
  : Z * list Project * Z :=
  fold_left greedy_step sorted_projects (0, [], capacity).

Definition greedy_knapsack_by (projects : list Project) (capacity : Z)
  : result (Z * list Project) :=
  if (capacity <=? 0) || bool_decide (projects = []) then inr (0, [])
  else
    let* kps := keyed projects in
    let sorted_projects := map snd (sorted_desc kps) in
    let '(total, chosen, _) := greedy_scan sorted_projects capacity in
    inr (total, chosen).
End Greedy.

(** [p.value / p.hours]: true division raises on a zero divisor. *)
Definition ratio (p : Project) : result Q :=
  if hours p =? 0 then inl ZeroDivisionError
  else inr (inject_Z (value p) / inject_Z (hours p))%Q.

Definition Qlt_bool (a b : Q) : bool := negb (Qle_bool b a).

Definition greedy_knapsack (projects : list Project) (capacity : Z)
  : result (Z * list Project) :=
  greedy_knapsack_by ratio Qlt_bool projects capacity.

(** ** Pure recursion *)

(** [solve(i, remaining)] of the source is [solve (drop i projects)
    remaining]: [i == n] is the empty suffix, [projects[i]] its head and
    [solve(i + 1, _)] the call on its tail. *)
Fixpoint solve (suffix : list Project) (remaining : Z) : Z * list Project :=
  match suffix with
  | [] => (0, [])
  | project :: rest =>
    if remaining <=? 0 then (0, [])
    else
      let '(value_without, list_without) := solve rest remaining in
      let '(value_with, list_with) :=
        if hours project <=? remaining then
          let '(sub_value, sub_list) := solve rest (remaining - hours project) in
          (sub_value + value project, project :: sub_list)
        else (-1, []) in
      if value_with >? value_without
      then (value_with, list_with)
      else (value_without, list_without)
  end.

Definition recursive_knapsack (projects : list Project) (capacity : Z)
  : Z * list Project :=
  solve projects capacity.

(** ** Top-down recursion with a memo dictionary *)

Abbreviation memo_t := (gmap (nat * Z) (Z * list Project)).

(** The dictionary is threaded through the calls; the index [i] is kept
    next to the suffix because it is half of the key. *)
Fixpoint solve_memo (suffix : list Project) (i : nat) (remaining : Z) (memo : memo_t)
  : (Z * list Project) * memo_t :=
  match suffix with
  | [] => ((0, []), memo)
  | project :: rest =>
    if remaining <=? 0 then ((0, []), memo)
    else
      match memo !! (i, remaining) with
      | Some cached => (cached, memo)
      | None =>
        let '((value_without, list_without), memo1) := solve_memo rest (S i) remaining memo in
        let '((value_with, list_with), memo2) :=
          if hours project <=? remaining then
            let '((sub_value, sub_list), m) :=
              solve_memo rest (S i) (remaining - hours project) memo1 in
            ((sub_value + value project, project :: sub_list), m)
          else ((-1, []), memo1) in
        let best :=
          if value_with >? value_without
          then (value_with, list_with)
          else (value_without, list_without) in
        (best, <[(i, remaining) := best]> memo2)
      end
  end.

Definition memoized_knapsack (projects : list Project) (capacity : Z)
  : Z * list Project :=
  fst (solve_memo projects 0%nat capacity ∅).

(** ** Bottom-up table *)

Abbreviation table := (list (list Z)).

(** [T[i][c]] and [T[i][c] = v]; the rows are distinct list objects. *)
Definition cell (T : table) (i c : Z) : result Z :=
  let* row := py_get T i in py_get row c.

Definition set_cell (T : table) (i c : Z) (v : Z) : result table :=
  let* row := py_get T i in let* row' := py_set row c v in py_set T i row'.

(** [[[0] * (capacity + 1) for _ in range(n + 1)]] *)
Definition init_table (n : nat) (capacity : Z) : table :=
  replicate (S n) (replicate (Z.to_nat (capacity + 1)) 0).

Definition fill_cell (p : Project) (i : Z) (T : table) (c : Z) : result table :=
  let* best := cell T (i - 1) c in
  let* best' :=
    (if hours p <=? c then
       let* prev := cell T (i - 1) (c - hours p) in
       let cand := prev + value p in
       inr (if cand >? best then cand else best)
     else inr best) in
  set_cell T i c best'.

Definition fill_row (projects : list Project) (capacity : Z) (T : table) (i : Z)
  : result table :=
  let* p := py_get projects (i - 1) in
  for_each (fill_cell p i) (range 0 (capacity + 1)) T.

Definition build_table (projects : list Project) (capacity : Z) : result table :=
  let n := length projects in
  for_each (fill_row projects capacity) (range 1 (Z.of_nat n + 1)) (init_table n capacity).

(** Reconstruction state: [(chosen, c)]. *)
Definition backtrack_step (projects : list Project) (T : table)
    (st : list Project * Z) (i : Z) : result (list Project * Z) :=
  let '(chosen, c) := st in
  let* here := cell T i c in
  let* above := cell T (i - 1) c in
  if bool_decide (here ≠ above) then
    let* p := py_get projects (i - 1) in
    inr (chosen ++ [p], c - hours p)
  else inr (chosen, c).

Definition bottom_up_knapsack (projects : list Project) (capacity : Z)
  : result (Z * list Project) :=
  let n := Z.of_nat (length projects) in
  let* T := build_table projects capacity in
  let* st := for_each (backtrack_step projects T) (range_down n 0) ([], capacity) in
  let* best := cell T n capacity in
  inr (best, rev (fst st)).

(** ** The scenarios of [run_tests] *)

Definition projects_example : list Project :=
  [mkProject "A" 12 4; mkProject "B" 10 3; mkProject "C" 7 2; mkProject "D" 4 3].
Definition projects_fail : list Project :=
  [mkProject "X1" 60 10; mkProject "X2" 100 20; mkProject "X3" 120 30].
Definition projects_small : list Project :=
  [mkProject "P1" 5 4; mkProject "P2" 6 5].
Definition projects_extra : list Project :=
  [mkProject "P1" 6 4; mkProject "P2" 5 3; mkProject "P3" 4 2].

(** Two projects of equal value and hours: taking the first or the
    second is a tie, and the second (the excluding branch) is kept. *)
Definition projects_tie : list Project := [mkProject "A" 5 2; mkProject "B" 5 2].

(** ** What the specification talks about *)

Definition positive_hours (projects : list Project) : Prop :=
  Forall (fun p => 0 < hours p) projects.

Definition nonneg_values (projects : list Project) : Prop :=
  Forall (fun p => 0 <= value p) projects.

(** A subset of the input is a selection of positions, that is a
    subsequence; it is feasible when its hours fit the capacity. *)
Definition feasible (projects : list Project) (capacity : Z) (s : list Project) : Prop :=
  s `sublist_of` projects /\ total_hours s <= capacity.

(** [v] is the true 0/1-knapsack optimum: some feasible subset reaches
    it and no feasible subset exceeds it. *)
Definition is_optimum (projects : list Project) (capacity : Z) (v : Z) : Prop :=
  (exists s, feasible projects capacity s /\ total_value s = v) /\
  (forall s, feasible projects capacity s -> total_value s <= v).

(** ** The scenario runner *)

(** What can stop [run_tests]: an exception raised by a solver, or a
    failed [assert] with its message.  The lines it prints are left
    out; the calls and the assertions are in the order of the source. *)
Inductive test_failure : Type :=
| SolverRaised (e : exn)
| AssertionError (msg : string).

Definition assert_that (cond : bool) (msg : string) : test_failure + unit :=
  if cond then inr tt else inl (AssertionError msg).

Definition test_scenarios : list (string * list Project * Z * Z) :=
  [("Exemplo Aula", projects_example, 10, 29);
   ("Greedy Falha", projects_fail, 50, 220);
   ("Lista Vazia", [], 10, 0);
   ("Capacidade Insuficiente", projects_small, 3, 0);
   ("Caso Extra", projects_extra, 5, 9)].

(** The body of the loop over the scenarios. *)
Definition run_scenario (scenario : string * list Project * Z * Z) : test_failure + unit :=
  let '(label, proj_list, cap, expected) := scenario in
  match greedy_knapsack proj_list cap with
  | inl e => inl (SolverRaised e)
  | inr (greedy_val, _) =>
    let '(rec_val, _) := recursive_knapsack proj_list cap in
    let '(memo_val, _) := memoized_knapsack proj_list cap in
    match bottom_up_knapsack proj_list cap with
    | inl e => inl (SolverRaised e)
    | inr (bottom_val, _) =>
      match assert_that (rec_val =? expected) ("Recursivo falhou em " +:+ label) with
      | inl f => inl f
      | inr _ =>
      match assert_that (memo_val =? expected) ("Memoizado falhou em " +:+ label) with
      | inl f => inl f
      | inr _ =>
      match assert_that (bottom_val =? expected) ("Bottom-Up falhou em " +:+ label) with
      | inl f => inl f
      | inr _ =>
        if negb (String.eqb label "Greedy Falha") then
          assert_that (greedy_val =? expected)
            ("Greedy deveria acertar neste caso: " +:+ label)
        else
          assert_that (negb (greedy_val =? expected))
            "Greedy deveria falhar neste caso de teste."
      end end end
    end
  end.

Fixpoint run_scenarios (scenarios : list (string * list Project * Z * Z))
  : test_failure + unit :=
  match scenarios with
  | [] => inr tt
  | scenario :: rest =>
    match run_scenario scenario with
    | inl f => inl f
    | inr _ => run_scenarios rest
    end
  end.

Definition run_tests : test_failure + unit := run_scenarios test_scenarios.

(** ** Auxiliary notions of the proofs *)

(** One level of the case analysis of [solve], with the two branches
    named as in the source. *)
Definition without_branch (rest : list Project) (remaining : Z) : Z * list Project :=
  solve rest remaining.

Definition with_branch (project : Project) (rest : list Project) (remaining : Z)
  : Z * list Project :=
  if hours project <=? remaining then
    (fst (solve rest (remaining - hours project)) + value project,
     project :: snd (solve rest (remaining - hours project)))
  else (-1, []).

(** Every entry of the dictionary is the result of the pure recursion
    on its key. *)
Definition memo_ok (projects : list Project) (memo : memo_t) : Prop :=
  forall i r res, memo !! (i, r) = Some res -> res = solve (drop i projects) r.

(** [dp projects i c] is what the double loop writes into [T[i][c]]. *)
Fixpoint dp (projects : list Project) (i : nat) (c : Z) : Z :=
  match i with
  | O => 0
  | S i' =>
    let best := dp projects i' c in
    match projects !! i' with
    | Some p =>
      if hours p <=? c then
        let cand := dp projects i' (c - hours p) + value p in
        if cand >? best then cand else best
      else best
    | None => best
    end
  end.

Definition table_cell (T : table) (i c : nat) (v : Z) : Prop :=
  exists row, T !! i = Some row /\ row !! c = Some v.

(** [(n+1)] rows of [capacity+1] cells each. *)
Definition shaped (n : nat) (capacity : Z) (T : table) : Prop :=
  length T = S n /\
  forall i row, T !! i = Some row -> length row = Z.to_nat (capacity + 1).

(** Rows [0..k] hold the recurrence. *)
Definition rows_filled (projects : list Project) (capacity : Z) (T : table) (k : nat) : Prop :=
  forall i c, (i <= k)%nat -> Z.of_nat c <= capacity ->
    table_cell T i c (dp projects i (Z.of_nat c)).

(** State of the walk once it has left row [i]: the recorded
    projects come from the rows below, and together with what the
    table still promises at [(i, c)] they make up [T[n][capacity]]. *)
Definition walk_inv (projects : list Project) (capacity : Z) (i : nat)
    (st : list Project * Z) : Prop :=
  0 <= snd st <= capacity /\
  total_hours (fst st) = capacity - snd st /\
  dp projects i (snd st) + total_value (fst st)
    = dp projects (length projects) capacity /\
  rev (fst st) `sublist_of` drop i projects.



(** * Proofs *)

Ltac each_project := repeat (constructor; [simpl; lia|]); constructor.
Ltac in_projects H :=
  repeat (apply elem_of_cons in H as [->|H]; [simpl; lia|]); by apply elem_of_nil in H.

(** ** Sums over subsets *)

Lemma total_value_app l1 l2 : total_value (l1 ++ l2) = total_value l1 + total_value l2.
Proof. induction l1 as [|p l1 IH]; simpl; [reflexivity | rewrite IH; lia]. Qed.

Lemma total_hours_app l1 l2 : total_hours (l1 ++ l2) = total_hours l1 + total_hours l2.
Proof. induction l1 as [|p l1 IH]; simpl; [reflexivity | rewrite IH; lia]. Qed.

Lemma total_value_perm l1 l2 : l1 ≡ₚ l2 -> total_value l1 = total_value l2.
Proof. induction 1; simpl; lia. Qed.

Lemma total_hours_perm l1 l2 : l1 ≡ₚ l2 -> total_hours l1 = total_hours l2.
Proof. induction 1; simpl; lia. Qed.

Lemma total_value_rev l : total_value (rev l) = total_value l.
Proof. apply total_value_perm. symmetry. apply Permutation_rev. Qed.

Lemma total_hours_rev l : total_hours (rev l) = total_hours l.
Proof. apply total_hours_perm. symmetry. apply Permutation_rev. Qed.

Lemma positive_hours_sublist s projects :
  s `sublist_of` projects -> positive_hours projects -> positive_hours s.
Proof.
  unfold positive_hours. induction 1 as [|x l1 l2 _ IH|x l1 l2 _ IH]; intros Hp.
  - constructor.
  - inversion Hp; subst. constructor; auto.
  - inversion Hp; subst. auto.
Qed.

Lemma total_hours_nonneg l : positive_hours l -> 0 <= total_hours l.
Proof. induction 1; simpl; lia. Qed.

Lemma total_hours_zero l : positive_hours l -> total_hours l <= 0 -> l = [].
Proof.
  intros Hpos Hle. destruct l as [|p l]; [reflexivity|].
  inversion Hpos as [|? ? Hp Hl]; subst. apply total_hours_nonneg in Hl. simpl in Hle. lia.
Qed.

(** ** The optimum *)

Lemma is_optimum_unique projects capacity v w :
  is_optimum projects capacity v -> is_optimum projects capacity w -> v = w.
Proof.
  intros [(s & Hs & Hv) Hmaxv] [(t & Ht & Hw) Hmaxw].
  apply Hmaxw in Hs. apply Hmaxv in Ht. lia.
Qed.

Lemma is_optimum_nil capacity : 0 <= capacity -> is_optimum [] capacity 0.
Proof.
  intros Hc. split.
  - exists []. repeat split; [constructor | simpl; lia].
  - intros s [Hs _]. apply sublist_nil_r in Hs. subst. simpl. lia.
Qed.

(** Nothing but the empty subset fits a capacity of zero. *)
Lemma is_optimum_zero_capacity projects :
  positive_hours projects -> is_optimum projects 0 0.
Proof.
  intros Hpos. split.
  - exists []. repeat split; [apply sublist_nil_l | simpl; lia].
  - intros s [Hs Hh]. apply (positive_hours_sublist _ _ Hs) in Hpos.
    rewrite (total_hours_zero s Hpos Hh). simpl. lia.
Qed.

(** The project does not fit: the optimum is the one of the others. *)
Lemma is_optimum_skip p projects capacity a :
  positive_hours projects -> capacity < hours p ->
  is_optimum projects capacity a -> is_optimum (p :: projects) capacity a.
Proof.
  intros Hpos Hbig [(s & [Hs Hh] & Hv) Hmax]. split.
  - exists s. repeat split; [by apply sublist_cons | done | done].
  - intros t [Ht Hth]. apply sublist_cons_r in Ht as [Ht | (t' & -> & Ht)].
    + by apply Hmax.
    + apply (positive_hours_sublist _ _ Ht), total_hours_nonneg in Hpos.
      simpl in Hth. lia.
Qed.

(** The project fits: the better of leaving it out and taking it. *)
Lemma is_optimum_choice p projects capacity a b :
  hours p <= capacity ->
  is_optimum projects capacity a ->
  is_optimum projects (capacity - hours p) b ->
  is_optimum (p :: projects) capacity (Z.max a (b + value p)).
Proof.
  intros Hfit [(s & [Hs Hh] & Hv) Hmaxa] [(t & [Ht Hth] & Hw) Hmaxb]. split.
  - destruct (Z.max_spec a (b + value p)) as [[_ ->] | [_ ->]].
    + exists (p :: t). repeat split; [by apply sublist_skip | simpl; lia | simpl; lia].
    + exists s. repeat split; [by apply sublist_cons | done | done].
  - intros u [Hu Huh]. apply sublist_cons_r in Hu as [Hu | (u' & -> & Hu)].
    + specialize (Hmaxa u (conj Hu Huh)). lia.
    + simpl in Huh. assert (Hf : feasible projects (capacity - hours p) u')
        by (split; [done | lia]).
      specialize (Hmaxb u' Hf). simpl. lia.
Qed.

(** The optimum does not depend on the order of the input. *)
Lemma is_optimum_perm projects projects' capacity v :
  projects ≡ₚ projects' -> is_optimum projects capacity v -> is_optimum projects' capacity v.
Proof.
  assert (Hmove : forall l l' s, l ≡ₚ l' -> s `sublist_of` l ->
            exists s', s' `sublist_of` l' /\ total_hours s' = total_hours s
                       /\ total_value s' = total_value s).
  { intros l l' s Hp Hs. apply sublist_submseteq in Hs. rewrite Hp in Hs.
    apply submseteq_sublist_r in Hs as (s' & Hss' & Hs').
    exists s'. split; [done|]. split; symmetry.
    - by apply total_hours_perm.
    - by apply total_value_perm. }
  intros Hp [(s & [Hs Hh] & Hv) Hmax]. split.
  - destruct (Hmove _ _ _ Hp Hs) as (s' & Hs' & Hh' & Hv').
    exists s'. repeat split; [done | lia | lia].
  - intros t [Ht Hth]. symmetry in Hp.
    destruct (Hmove _ _ _ Hp Ht) as (t' & Ht' & Hh' & Hv').
    rewrite <- Hv'. apply Hmax. split; [done | lia].
Qed.

(** Adding one more project at the end of the prefix. *)
Lemma is_optimum_snoc_skip p projects capacity a :
  positive_hours projects -> capacity < hours p ->
  is_optimum projects capacity a -> is_optimum (projects ++ [p]) capacity a.
Proof.
  intros Hpos Hbig Ha. apply (is_optimum_perm (p :: projects)).
  - by rewrite Permutation_app_comm.
  - by apply is_optimum_skip.
Qed.

Lemma is_optimum_snoc_choice p projects capacity a b :
  hours p <= capacity ->
  is_optimum projects capacity a ->
  is_optimum projects (capacity - hours p) b ->
  is_optimum (projects ++ [p]) capacity (Z.max a (b + value p)).
Proof.
  intros Hfit Ha Hb. apply (is_optimum_perm (p :: projects)).
  - by rewrite Permutation_app_comm.
  - by apply is_optimum_choice.
Qed.

(** ** The pure recursion *)

Lemma solve_cons project rest remaining :
  0 < remaining ->
  solve (project :: rest) remaining =
    if fst (with_branch project rest remaining) >? fst (without_branch rest remaining)
    then with_branch project rest remaining
    else without_branch rest remaining.
Proof.
  intros Hr. unfold with_branch, without_branch. simpl.
  destruct (Z.leb_spec remaining 0); [lia|].
  destruct (solve rest remaining) as [vw lw].
  destruct (hours project <=? remaining).
  - destruct (solve rest (remaining - hours project)) as [sv sl]. simpl.
    by destruct (sv + value project >? vw).
  - simpl. by destruct (-1 >? vw).
Qed.

Lemma solve_base suffix remaining : remaining <= 0 -> solve suffix remaining = (0, []).
Proof.
  intros Hr. destruct suffix as [|p rest]; [reflexivity|]. simpl.
  destruct (Z.leb_spec remaining 0); [reflexivity | lia].
Qed.

Lemma solve_nonneg suffix remaining : 0 <= fst (solve suffix remaining).
Proof.
  revert remaining. induction suffix as [|p rest IH]; intros r; [simpl; lia|].
  destruct (Z_le_gt_dec r 0) as [Hr|Hr].
  - rewrite solve_base by done. simpl. lia.
  - rewrite solve_cons by lia. unfold without_branch.
    rewrite Z.gtb_ltb. destruct (Z.ltb_spec (fst (solve rest r)) (fst (with_branch p rest r))).
    + specialize (IH r). lia.
    + apply IH.
Qed.

Lemma solve_sublist suffix remaining : snd (solve suffix remaining) `sublist_of` suffix.
Proof.
  revert remaining. induction suffix as [|p rest IH]; intros r; [simpl; constructor|].
  destruct (Z_le_gt_dec r 0) as [Hr|Hr].
  - rewrite solve_base by done. apply sublist_nil_l.
  - rewrite solve_cons by lia. unfold without_branch, with_branch.
    destruct (_ >? _).
    + destruct (hours p <=? r); simpl; [by apply sublist_skip | apply sublist_nil_l].
    + by apply sublist_cons.
Qed.

Lemma solve_value suffix remaining :
  total_value (snd (solve suffix remaining)) = fst (solve suffix remaining).
Proof.
  revert remaining. induction suffix as [|p rest IH]; intros r; [reflexivity|].
  destruct (Z_le_gt_dec r 0) as [Hr|Hr].
  - by rewrite solve_base.
  - rewrite solve_cons by lia. unfold without_branch.
    rewrite Z.gtb_ltb. destruct (Z.ltb_spec (fst (solve rest r)) (fst (with_branch p rest r))) as [Hlt|Hge].
    + unfold with_branch in *. destruct (hours p <=? r); simpl in *.
      * rewrite IH. lia.
      * pose proof (solve_nonneg rest r). lia.
    + apply IH.
Qed.

Lemma solve_hours suffix remaining :
  0 <= remaining -> total_hours (snd (solve suffix remaining)) <= remaining.
Proof.
  revert remaining. induction suffix as [|p rest IH]; intros r Hr0; [simpl; lia|].
  destruct (Z_le_gt_dec r 0) as [Hr|Hr].
  - rewrite solve_base by done. simpl. lia.
  - rewrite solve_cons by lia. unfold without_branch, with_branch.
    destruct (_ >? _).
    + destruct (Z.leb_spec (hours p) r); simpl; [|lia].
      specialize (IH (r - hours p)). lia.
    + by apply IH.
Qed.

Lemma solve_optimum suffix remaining :
  positive_hours suffix -> 0 <= remaining ->
  is_optimum suffix remaining (fst (solve suffix remaining)).
Proof.
  revert remaining. induction suffix as [|p rest IH]; intros r Hpos Hr0.
  - by apply is_optimum_nil.
  - destruct (Z_le_gt_dec r 0) as [Hr|Hr].
    { rewrite solve_base by done. assert (r = 0) as -> by lia.
      by apply is_optimum_zero_capacity. }
    inversion Hpos as [|? ? Hp Hrest]; subst.
    rewrite solve_cons by lia. unfold without_branch, with_branch.
    destruct (Z.leb_spec (hours p) r) as [Hfit|Hbig]; simpl.
    + pose proof (is_optimum_choice p rest r _ _ Hfit (IH r Hrest Hr0)
                    (IH (r - hours p) Hrest ltac:(lia))) as Hopt.
      rewrite Z.gtb_ltb. destruct (Z.ltb_spec (fst (solve rest r))
                                     (fst (solve rest (r - hours p)) + value p)); simpl.
      * by rewrite Z.max_r in Hopt by lia.
      * by rewrite Z.max_l in Hopt by lia.
    + pose proof (solve_nonneg rest r).
      rewrite Z.gtb_ltb. destruct (Z.ltb_spec (fst (solve rest r)) (-1)); [lia|].
      apply is_optimum_skip; [done | lia | by apply IH].
Qed.

(** ** The memoised recursion computes what the pure recursion does *)

Lemma memo_ok_empty projects : memo_ok projects ∅.
Proof. intros i r res H. by rewrite lookup_empty in H. Qed.

Lemma drop_cons_next (projects : list Project) i p rest :
  p :: rest = drop i projects -> rest = drop (S i) projects.
Proof.
  revert projects. induction i as [|i IH]; intros [|q l] H; simpl in *; try congruence.
  - rewrite drop_0. congruence.
  - by apply IH.
Qed.

Lemma memo_ok_insert projects memo i r :
  memo_ok projects memo ->
  memo_ok projects (<[(i, r) := solve (drop i projects) r]> memo).
Proof.
  intros Hok j r' res. destruct (decide ((i, r) = (j, r'))) as [[= <- <-]|Hne].
  - rewrite lookup_insert_eq. by intros [= <-].
  - rewrite lookup_insert_ne by done. apply Hok.
Qed.

Lemma solve_memo_correct projects suffix i remaining memo :
  suffix = drop i projects -> memo_ok projects memo ->
  fst (solve_memo suffix i remaining memo) = solve suffix remaining /\
  memo_ok projects (snd (solve_memo suffix i remaining memo)).
Proof.
  revert i remaining memo.
  induction suffix as [|p rest IH]; intros i r memo Hsuf Hok; [by split|].
  pose proof (drop_cons_next _ _ _ _ Hsuf) as Hrest.
  assert (Hins : forall m, memo_ok projects m ->
            memo_ok projects (<[(i, r) := solve (p :: rest) r]> m)).
  { intros m Hm. rewrite Hsuf. by apply memo_ok_insert. }
  cbn [solve_memo]. destruct (Z.leb_spec r 0) as [Hr|Hr].
  { rewrite solve_base by done. by split. }
  destruct (memo !! (i, r)) as [cached|] eqn:Hlook.
  { simpl. split; [|done]. by rewrite (Hok _ _ _ Hlook), <- Hsuf. }
  rewrite solve_cons in * by done. unfold with_branch, without_branch in *.
  destruct (IH (S i) r memo Hrest Hok) as [E1 Hok1].
  destruct (solve_memo rest (S i) r memo) as [[vw lw] memo1]. simpl in E1, Hok1.
  rewrite <- E1 in *. simpl in *.
  destruct (hours p <=? r).
  - destruct (IH (S i) (r - hours p) memo1 Hrest Hok1) as [E2 Hok2].
    destruct (solve_memo rest (S i) (r - hours p) memo1) as [[sv sl] memo2].
    simpl in E2, Hok2. rewrite <- E2 in *. simpl in *. split; [done | by apply Hins].
  - simpl in *. split; [done | by apply Hins].
Qed.

Lemma memoized_knapsack_eq_recursive projects capacity :
  memoized_knapsack projects capacity = recursive_knapsack projects capacity.
Proof.
  unfold memoized_knapsack, recursive_knapsack.
  apply (solve_memo_correct projects projects 0%nat capacity ∅).
  - by rewrite drop_0.
  - apply memo_ok_empty.
Qed.

(** ** The greedy selector, for any sort key *)

Lemma greedy_scan_from (l : list Project) total chosen remaining :
  exists added,
    fold_left greedy_step l (total, chosen, remaining)
      = (total + total_value added, chosen ++ added, remaining - total_hours added) /\
    added `sublist_of` l /\
    (0 <= remaining -> total_hours added <= remaining).
Proof.
  revert total chosen remaining.
  induction l as [|p l IH]; intros t ch r.
  - exists []. simpl. rewrite app_nil_r, Z.add_0_r, Z.sub_0_r.
    repeat split; [constructor | lia].
  - cbn [fold_left greedy_step]. destruct (Z.leb_spec (hours p) r) as [Hfit|Hbig].
    + destruct (IH (t + value p) (ch ++ [p]) (r - hours p)) as (added & -> & Hsub & Hh).
      exists (p :: added). simpl. rewrite <- app_assoc. simpl.
      split; [f_equal; [f_equal|]; lia|]. split; [by apply sublist_skip | lia].
    + destruct (IH t ch r) as (added & -> & Hsub & Hh).
      exists added. split; [done|]. split; [by apply sublist_cons | done].
Qed.

Section GreedyFacts.
Context {K : Type} (key : Project -> result K) (klt : K -> K -> bool).

Lemma keyed_projects ps kps : keyed key ps = inr kps -> map snd kps = ps.
Proof.
  revert kps. induction ps as [|p ps IH]; intros kps; simpl.
  - by intros [= <-].
  - destruct (key p) as [e|k]; simpl; [done|].
    destruct (keyed key ps) as [e|krest]; simpl; [done|].
    intros [= <-]. simpl. by rewrite (IH krest).
Qed.

(** The only exceptions of the sort are those of the key. *)
Lemma keyed_raises ps e : keyed key ps = inl e -> exists p, p ∈ ps /\ key p = inl e.
Proof.
  induction ps as [|p ps IH]; simpl; [done|].
  destruct (key p) as [e'|k] eqn:Hk; simpl.
  - intros [= <-]. exists p. split; [apply list_elem_of_here | done].
  - destruct (keyed key ps) as [e'|krest]; simpl; [|done].
    intros [= <-]. destruct IH as (q & Hq & Hkq); [done|].
    exists q. split; [by apply list_elem_of_further | done].
Qed.

Lemma insert_desc_perm x l : insert_desc klt x l ≡ₚ x :: l.
Proof.
  induction l as [|y l IH]; simpl; [done|].
  destruct (klt (fst x) (fst y)); [|done].
  rewrite IH. apply Permutation_swap.
Qed.

Lemma sorted_desc_perm l : sorted_desc klt l ≡ₚ l.
Proof.
  induction l as [|x l IH]; simpl; [done|].
  rewrite insert_desc_perm. by rewrite IH.
Qed.

(** Whatever the key and its order, a returned selection is drawn
    from the input, sums to the returned value and fits. *)
Lemma greedy_knapsack_by_sound projects capacity g chosen :
  greedy_knapsack_by key klt projects capacity = inr (g, chosen) ->
  chosen ⊆+ projects /\ total_value chosen = g /\
  (0 <= capacity -> total_hours chosen <= capacity).
Proof.
  unfold greedy_knapsack_by. destruct (_ || _).
  { intros [= <- <-]. split; [apply submseteq_nil_l|]. simpl. split; lia. }
  destruct (keyed key projects) as [e|kps] eqn:Hk; simpl; [done|].
  unfold greedy_scan.
  destruct (greedy_scan_from (map snd (sorted_desc klt kps)) 0 [] capacity)
    as (added & -> & Hsub & Hh).
  intros [= <- <-]. simpl. split; [|split; [lia | done]].
  apply sublist_submseteq in Hsub.
  by rewrite sorted_desc_perm, (keyed_projects _ _ Hk) in Hsub.
Qed.

Lemma greedy_knapsack_by_raises projects capacity e :
  greedy_knapsack_by key klt projects capacity = inl e ->
  exists p, p ∈ projects /\ key p = inl e.
Proof.
  unfold greedy_knapsack_by. destruct (_ || _); [done|].
  destruct (keyed key projects) as [e'|kps] eqn:Hk; simpl.
  - intros [= <-]. by apply keyed_raises.
  - by destruct (greedy_scan _ _) as [[? ?] ?].
Qed.
End GreedyFacts.

(** ** The greedy selector with the value-to-hours ratio *)

Lemma ratio_raises p e : ratio p = inl e -> e = ZeroDivisionError /\ hours p = 0.
Proof.
  unfold ratio. destruct (Z.eqb_spec (hours p) 0); [|done]. by intros [= <-].
Qed.

Lemma greedy_knapsack_returns projects capacity :
  positive_hours projects ->
  exists g chosen, greedy_knapsack projects capacity = inr (g, chosen).
Proof.
  intros Hpos. destruct (greedy_knapsack projects capacity) as [e|[g chosen]] eqn:Hg.
  - apply greedy_knapsack_by_raises in Hg as (p & Hp & Hr).
    apply ratio_raises in Hr as [_ Hz].
    unfold positive_hours in Hpos. rewrite Forall_forall in Hpos.
    specialize (Hpos p Hp). lia.
  - by exists g, chosen.
Qed.

(** A selection drawn from the input that fits cannot beat the optimum,
    in whatever order it is listed. *)
Lemma selection_le_optimum projects capacity chosen v :
  chosen ⊆+ projects -> total_hours chosen <= capacity ->
  is_optimum projects capacity v -> total_value chosen <= v.
Proof.
  intros Hsub Hh [_ Hmax].
  apply submseteq_sublist_r in Hsub as (s & Hperm & Hs).
  rewrite (total_value_perm _ _ Hperm). apply Hmax. split; [done|].
  by rewrite <- (total_hours_perm _ _ Hperm).
Qed.

(** ** Loops and indexing *)

(** Invariant rule for a loop that may raise: if the invariant holds
    before, and every iteration (knowing which items came before)
    returns and re-establishes it, the loop returns and the invariant
    holds for the whole list. *)
Lemma for_each_invariant {A B : Type} (body : A -> B -> result A)
    (Inv : list B -> A -> Prop) (items : list B) (st : A) :
  Inv [] st ->
  (forall done x rest s, items = done ++ x :: rest -> Inv done s ->
     exists s', body s x = inr s' /\ Inv (done ++ [x]) s') ->
  exists st', for_each body items st = inr st' /\ Inv items st'.
Proof.
  intros Hinit Hstep.
  assert (Hgen : forall rest done s, items = done ++ rest -> Inv done s ->
            exists st', for_each body rest s = inr st' /\ Inv items st').
  { induction rest as [|x rest IH]; intros done s Hitems Hinv.
    - exists s. rewrite app_nil_r in Hitems. subst. by split.
    - destruct (Hstep done x rest s Hitems Hinv) as (s' & Hbody & Hinv').
      simpl. rewrite Hbody. simpl. apply (IH (done ++ [x])); [|done].
      by rewrite <- app_assoc. }
  by apply (Hgen items []).
Qed.

Lemma seq_map_split {B : Type} (f : nat -> B) (m : nat) done x rest :
  map f (seq 0 m) = done ++ x :: rest -> x = f (length done) /\ (length done < m)%nat.
Proof.
  intros Heq.
  assert (Hx : map f (seq 0 m) !! length done = Some x).
  { rewrite Heq. rewrite lookup_app_r by lia. by rewrite Nat.sub_diag. }
  rewrite list_lookup_fmap in Hx.
  destruct (seq 0 m !! length done) as [k|] eqn:Hk; [|done].
  apply lookup_seq in Hk as [-> Hlt]. simpl in Hx. split; [congruence | done].
Qed.

Lemma range_split a b done x rest :
  range a b = done ++ x :: rest -> x = a + Z.of_nat (length done) /\ x < b.
Proof.
  intros H. apply seq_map_split in H as [-> Hlt]. split; [done | lia].
Qed.

Lemma range_down_split a b done x rest :
  range_down a b = done ++ x :: rest -> x = a - Z.of_nat (length done) /\ b < x.
Proof.
  intros H. apply seq_map_split in H as [-> Hlt]. split; [done | lia].
Qed.

Lemma range_length a b : length (range a b) = Z.to_nat (b - a).
Proof. unfold range. by rewrite length_map, length_seq. Qed.

Lemma range_down_length a b : length (range_down a b) = Z.to_nat (a - b).
Proof. unfold range_down. by rewrite length_map, length_seq. Qed.

Lemma py_get_nat {A : Type} (l : list A) (i : nat) (a : A) :
  l !! i = Some a -> py_get l (Z.of_nat i) = inr a.
Proof.
  intros H. pose proof (lookup_lt_Some _ _ _ H) as Hlt.
  unfold py_get, py_index.
  destruct (Z.leb_spec 0 (Z.of_nat i)); [|lia].
  destruct (Z.ltb_spec (Z.of_nat i) (Z.of_nat (length l))); [|lia].
  simpl. by rewrite Nat2Z.id, H.
Qed.

Lemma py_set_nat {A : Type} (l : list A) (i : nat) (a : A) :
  (i < length l)%nat -> py_set l (Z.of_nat i) a = inr (<[i := a]> l).
Proof.
  intros Hlt. unfold py_set, py_index.
  destruct (Z.leb_spec 0 (Z.of_nat i)); [|lia].
  destruct (Z.ltb_spec (Z.of_nat i) (Z.of_nat (length l))); [|lia].
  simpl. by rewrite Nat2Z.id.
Qed.

(** A negative index into an empty list raises. *)
Lemma py_get_empty {A : Type} (z : Z) : py_get (@nil A) z = inl IndexError.
Proof.
  unfold py_get, py_index. simpl.
  repeat (case_match; simpl); done.
Qed.

(** ** The recurrence of the table *)

Lemma positive_hours_take projects i : positive_hours projects -> positive_hours (take i projects).
Proof. apply positive_hours_sublist, sublist_take. Qed.

Lemma dp_optimum projects i c :
  positive_hours projects -> (i <= length projects)%nat -> 0 <= c ->
  is_optimum (take i projects) c (dp projects i c).
Proof.
  intros Hpos. revert c. induction i as [|i IH]; intros c Hi Hc.
  - rewrite take_0. by apply is_optimum_nil.
  - destruct (lookup_lt_is_Some_2 projects i ltac:(lia)) as [p Hp].
    rewrite (take_S_r _ _ _ Hp). simpl. rewrite Hp.
    assert (Hpp : 0 < hours p).
    { unfold positive_hours in Hpos. rewrite Forall_forall in Hpos.
      apply Hpos. by eapply list_elem_of_lookup_2. }
    pose proof (positive_hours_take projects i Hpos) as Hpt.
    destruct (Z.leb_spec (hours p) c) as [Hfit|Hbig].
    + pose proof (is_optimum_snoc_choice p _ c _ _ Hfit (IH c ltac:(lia) Hc)
                    (IH (c - hours p) ltac:(lia) ltac:(lia))) as Hopt.
      rewrite Z.gtb_ltb.
      destruct (Z.ltb_spec (dp projects i c) (dp projects i (c - hours p) + value p)).
      * by rewrite Z.max_r in Hopt by lia.
      * by rewrite Z.max_l in Hopt by lia.
    + apply is_optimum_snoc_skip; [done | done | apply IH; lia].
Qed.

Lemma dp_zero_capacity projects i : positive_hours projects -> dp projects i 0 = 0.
Proof.
  intros Hpos. induction i as [|i IH]; [reflexivity|]. simpl. rewrite IH.
  destruct (projects !! i) as [p|] eqn:Hp; [|done].
  assert (Hpp : 0 < hours p).
  { unfold positive_hours in Hpos. rewrite Forall_forall in Hpos.
    apply Hpos. by eapply list_elem_of_lookup_2. }
  destruct (Z.leb_spec (hours p) 0); [lia | done].
Qed.

(** ** The table *)

Lemma cell_nat T i c v :
  table_cell T i c v -> cell T (Z.of_nat i) (Z.of_nat c) = inr v.
Proof.
  intros (row & Hrow & Hv). unfold cell.
  rewrite (py_get_nat _ _ _ Hrow). simpl. by apply py_get_nat.
Qed.

Lemma set_cell_nat n capacity T i c v :
  shaped n capacity T -> (i <= n)%nat -> Z.of_nat c <= capacity ->
  exists T', set_cell T (Z.of_nat i) (Z.of_nat c) v = inr T' /\
    shaped n capacity T' /\
    table_cell T' i c v /\
    (forall i' c' w, (i', c') <> (i, c) -> table_cell T i' c' w -> table_cell T' i' c' w).
Proof.
  intros [Hlen Hrows] Hi Hc.
  destruct (lookup_lt_is_Some_2 T i ltac:(lia)) as [row Hrow].
  pose proof (Hrows _ _ Hrow) as Hw.
  assert (Hcw : (c < length row)%nat) by lia.
  exists (<[i := <[c := v]> row]> T). unfold set_cell.
  rewrite (py_get_nat _ _ _ Hrow). simpl.
  rewrite py_set_nat by done. simpl.
  rewrite py_set_nat by lia. split; [done|]. split; [|split].
  - split; [by rewrite length_insert|].
    intros j r Hj. destruct (decide (i = j)) as [<-|Hne].
    + rewrite list_lookup_insert_eq in Hj by lia. injection Hj as <-.
      by rewrite length_insert.
    + rewrite list_lookup_insert_ne in Hj by done. by eapply Hrows.
  - exists (<[c := v]> row). split.
    + by rewrite list_lookup_insert_eq by lia.
    + by rewrite list_lookup_insert_eq.
  - intros i' c' w Hne (r & Hr & Hw'). destruct (decide (i = i')) as [<-|Hi'].
    + exists (<[c := v]> row). split; [by rewrite list_lookup_insert_eq by lia|].
      assert (r = row) as -> by congruence.
      rewrite list_lookup_insert_ne; [done | congruence].
    + exists r. split; [|done]. by rewrite list_lookup_insert_ne.
Qed.

Lemma init_table_shaped n capacity : shaped n capacity (init_table n capacity).
Proof.
  unfold init_table. split; [by rewrite length_replicate|].
  intros i row Hrow. apply lookup_replicate in Hrow as [-> _].
  by rewrite length_replicate.
Qed.

Lemma init_table_cell n capacity i c :
  (i <= n)%nat -> Z.of_nat c <= capacity -> table_cell (init_table n capacity) i c 0.
Proof.
  intros Hi Hc. exists (replicate (Z.to_nat (capacity + 1)) 0). unfold init_table.
  split; apply lookup_replicate_2; lia.
Qed.

Section Table.
Variable projects : list Project.
Variable capacity : Z.
Hypothesis Hpos : positive_hours projects.
Hypothesis Hcap : 0 <= capacity.

Let n := length projects.

Lemma lookup_positive k p : projects !! k = Some p -> 0 < hours p.
Proof.
  intros Hp. unfold positive_hours in Hpos. rewrite Forall_forall in Hpos.
  apply Hpos. by eapply list_elem_of_lookup_2.
Qed.

(** One cell of row [k+1], the cells to its left and the rows above
    being done. *)
Lemma fill_cell_spec T k p c :
  projects !! k = Some p ->
  shaped n capacity T ->
  rows_filled projects capacity T k ->
  (forall c', (c' < c)%nat -> table_cell T (S k) c' (dp projects (S k) (Z.of_nat c'))) ->
  Z.of_nat c <= capacity ->
  exists T', fill_cell p (Z.of_nat (S k)) T (Z.of_nat c) = inr T' /\
    shaped n capacity T' /\
    rows_filled projects capacity T' k /\
    (forall c', (c' < S c)%nat -> table_cell T' (S k) c' (dp projects (S k) (Z.of_nat c'))).
Proof.
  intros Hp Hshape Hrows Hleft Hc.
  pose proof (lookup_positive _ _ Hp) as Hpp.
  pose proof (lookup_lt_Some _ _ _ Hp) as Hk. fold n in Hk.
  unfold fill_cell. replace (Z.of_nat (S k) - 1) with (Z.of_nat k) by lia.
  rewrite (cell_nat _ _ _ _ (Hrows k c ltac:(lia) Hc)). cbn [bind].
  assert (Hbest : exists best',
    (if hours p <=? Z.of_nat c
     then let* prev := cell T (Z.of_nat k) (Z.of_nat c - hours p) in
          inr (if prev + value p >? dp projects k (Z.of_nat c)
               then prev + value p else dp projects k (Z.of_nat c))
     else inr (dp projects k (Z.of_nat c))) = inr best' /\
    best' = dp projects (S k) (Z.of_nat c)).
  { simpl dp. rewrite Hp. destruct (Z.leb_spec (hours p) (Z.of_nat c)) as [Hfit|Hbig].
    - assert (Hm : exists m, Z.of_nat m = Z.of_nat c - hours p)
        by (exists (Z.to_nat (Z.of_nat c - hours p)); lia).
      destruct Hm as [m Hm]. rewrite <- Hm.
      rewrite (cell_nat _ _ _ _ (Hrows k m ltac:(lia) ltac:(lia))). simpl.
      eexists. by split.
    - eexists. by split. }
  destruct Hbest as (best' & -> & ->). cbn [bind].
  destruct (set_cell_nat n capacity T (S k) c (dp projects (S k) (Z.of_nat c))
              Hshape ltac:(lia) Hc) as (T' & -> & Hshape' & Hnew & Hold).
  exists T'. split; [done|]. split; [done|]. split.
  - intros i c' Hi Hc'. apply Hold; [|by apply Hrows].
    intros [= -> ->]. lia.
  - intros c' Hc'. destruct (decide (c' = c)) as [->|Hne]; [done|].
    apply Hold; [congruence|]. apply Hleft. lia.
Qed.

(** One row. *)
Lemma fill_row_spec T k :
  (k < n)%nat ->
  shaped n capacity T ->
  rows_filled projects capacity T k ->
  exists T', fill_row projects capacity T (Z.of_nat (S k)) = inr T' /\
    shaped n capacity T' /\ rows_filled projects capacity T' (S k).
Proof.
  intros Hk Hshape Hrows.
  destruct (lookup_lt_is_Some_2 projects k Hk) as [p Hp].
  unfold fill_row. replace (Z.of_nat (S k) - 1) with (Z.of_nat k) by lia.
  rewrite (py_get_nat _ _ _ Hp). simpl.
  destruct (for_each_invariant (fill_cell p (Z.of_nat (S k)))
    (fun done T' => shaped n capacity T' /\ rows_filled projects capacity T' k /\
       forall c', (c' < length done)%nat ->
         table_cell T' (S k) c' (dp projects (S k) (Z.of_nat c')))
    (range 0 (capacity + 1)) T) as (T' & HT' & Hshape' & Hrows' & Hrow).
  - split; [done|]. split; [done|]. simpl. lia.
  - intros done x rest s Hsplit (Hs1 & Hs2 & Hs3).
    apply range_split in Hsplit as [-> Hlt]. rewrite Z.add_0_l.
    destruct (fill_cell_spec s k p (length done) Hp Hs1 Hs2 Hs3 ltac:(lia))
      as (s' & -> & H1 & H2 & H3).
    exists s'. split; [done|]. split; [done|]. split; [done|].
    intros c' Hc'. apply H3. rewrite length_app in Hc'. simpl in Hc'. lia.
  - exists T'. split; [done|]. split; [done|].
    intros i c Hi Hc. destruct (decide (i = S k)) as [->|Hne].
    + apply Hrow. rewrite range_length. lia.
    + apply Hrows'; [lia | done].
Qed.

(** The whole table. *)
Lemma build_table_spec :
  exists T, build_table projects capacity = inr T /\
    shaped n capacity T /\ rows_filled projects capacity T n.
Proof.
  unfold build_table. fold n.
  destruct (for_each_invariant (fill_row projects capacity)
    (fun done T => shaped n capacity T /\ rows_filled projects capacity T (length done))
    (range 1 (Z.of_nat n + 1)) (init_table n capacity)) as (T & HT & Hshape & Hrows).
  - split; [apply init_table_shaped|]. intros i c Hi Hc. simpl in Hi.
    assert (i = 0%nat) as -> by lia. simpl. apply init_table_cell; [lia | done].
  - intros done x rest s Hsplit [Hs1 Hs2].
    apply range_split in Hsplit as [-> Hlt].
    replace (1 + Z.of_nat (length done)) with (Z.of_nat (S (length done))) by lia.
    destruct (fill_row_spec s (length done) ltac:(lia) Hs1 Hs2) as (s' & -> & H1 & H2).
    exists s'. split; [done|]. split; [done|].
    rewrite length_app. simpl. by rewrite Nat.add_1_r.
  - exists T. split; [done|]. split; [done|].
    rewrite range_length in Hrows. by replace (Z.to_nat (Z.of_nat n + 1 - 1)) with n in Hrows by lia.
Qed.
End Table.

(** ** The reconstruction *)

Lemma dp_differs projects k p c :
  projects !! k = Some p -> dp projects (S k) c <> dp projects k c ->
  hours p <= c /\ dp projects (S k) c = dp projects k (c - hours p) + value p.
Proof.
  intros Hp. simpl. rewrite Hp.
  destruct (Z.leb_spec (hours p) c); [|done].
  destruct (_ >? _); [by split | done].
Qed.

Section Backtrack.
Variable projects : list Project.
Variable capacity : Z.
Hypothesis Hpos : positive_hours projects.
Hypothesis Hcap : 0 <= capacity.
Variable T : table.

Let n := length projects.

Hypothesis Hrows : rows_filled projects capacity T n.

Lemma cell_filled i c :
  (i <= n)%nat -> 0 <= c <= capacity -> cell T (Z.of_nat i) c = inr (dp projects i c).
Proof.
  intros Hi Hc. rewrite <- (Z2Nat.id c) by lia.
  apply cell_nat, Hrows; [done | lia].
Qed.

Lemma backtrack_step_spec k st :
  (k < n)%nat -> walk_inv projects capacity (S k) st ->
  exists st', backtrack_step projects T st (Z.of_nat (S k)) = inr st' /\
              walk_inv projects capacity k st'.
Proof.
  destruct st as [chosen c]. intros Hk (Hc & Hh & Hv & Hsub).
  cbn [fst snd] in Hc, Hh, Hv, Hsub.
  destruct (lookup_lt_is_Some_2 projects k Hk) as [p Hp].
  unfold backtrack_step. replace (Z.of_nat (S k) - 1) with (Z.of_nat k) by lia.
  rewrite (cell_filled (S k) c) by (done || lia). cbn [bind].
  rewrite (cell_filled k c) by (done || lia). cbn [bind].
  case_bool_decide as Hdiff.
  - apply (dp_differs _ _ _ _ Hp) in Hdiff as [Hfit Hhere].
    pose proof (lookup_positive _ Hpos _ _ Hp) as Hpp.
    rewrite (py_get_nat _ _ _ Hp). cbn [bind].
    eexists. split; [reflexivity|]. unfold walk_inv. simpl.
    rewrite (drop_S _ _ _ Hp).
    rewrite total_hours_app, total_value_app, rev_app_distr. simpl.
    split; [lia|]. split; [lia|]. split; [lia|].
    by apply sublist_skip.
  - eexists. split; [reflexivity|]. unfold walk_inv. simpl.
    rewrite (drop_S _ _ _ Hp).
    split; [lia|]. split; [lia|]. split; [lia|].
    by apply sublist_cons.
Qed.

Lemma backtrack_spec :
  exists st, for_each (backtrack_step projects T) (range_down (Z.of_nat n) 0) ([], capacity)
               = inr st /\ walk_inv projects capacity 0 st.
Proof.
  destruct (for_each_invariant (backtrack_step projects T)
    (fun done st => walk_inv projects capacity (n - length done) st)
    (range_down (Z.of_nat n) 0) ([], capacity)) as (st & Hst & Hinv).
  - unfold walk_inv. simpl. rewrite Nat.sub_0_r. unfold n.
    split; [lia|]. split; [lia|]. split; [lia | apply sublist_nil_l].
  - intros done x rest s Hsplit Hinv.
    apply range_down_split in Hsplit as [-> Hlt].
    assert (Hidx : exists k, (n - length done = S k)%nat /\ (k < n)%nat)
      by (exists (n - length done - 1)%nat; lia).
    destruct Hidx as (k & Hk & Hkn). rewrite Hk in Hinv.
    replace (Z.of_nat n - Z.of_nat (length done)) with (Z.of_nat (S k)) by lia.
    destruct (backtrack_step_spec k s Hkn Hinv) as (s' & -> & Hinv').
    exists s'. split; [done|]. rewrite length_app. simpl.
    by replace (n - (length done + 1))%nat with k by lia.
  - exists st. split; [done|]. rewrite range_down_length in Hinv.
    by replace (n - Z.to_nat (Z.of_nat n - 0))%nat with 0%nat in Hinv by lia.
Qed.
End Backtrack.

(** ** The bottom-up solver as a whole *)

Lemma bottom_up_knapsack_spec projects capacity :
  positive_hours projects -> 0 <= capacity ->
  exists T recorded c,
    build_table projects capacity = inr T /\
    shaped (length projects) capacity T /\
    rows_filled projects capacity T (length projects) /\
    for_each (backtrack_step projects T)
      (range_down (Z.of_nat (length projects)) 0) ([], capacity) = inr (recorded, c) /\
    bottom_up_knapsack projects capacity
      = inr (dp projects (length projects) capacity, rev recorded) /\
    rev recorded `sublist_of` projects /\
    total_value (rev recorded) = dp projects (length projects) capacity /\
    total_hours (rev recorded) <= capacity.
Proof.
  intros Hpos Hcap.
  destruct (build_table_spec projects capacity Hpos Hcap) as (T & HT & Hshape & Hrows).
  destruct (backtrack_spec projects capacity Hpos Hcap T Hrows)
    as ([recorded c] & Hwalk & Hc & Hh & Hv & Hsub).
  simpl in Hc, Hh, Hv, Hsub. rewrite drop_0 in Hsub.
  exists T, recorded, c. split; [done|]. split; [done|]. split; [done|]. split; [done|].
  unfold bottom_up_knapsack. rewrite HT. cbn [bind]. rewrite Hwalk. cbn [bind].
  rewrite (cell_filled projects capacity Hcap T Hrows) by lia. cbn [bind fst].
  split; [done|]. split; [done|].
  rewrite total_value_rev, total_hours_rev. split; lia.
Qed.

Lemma dp_full_optimum projects capacity :
  positive_hours projects -> 0 <= capacity ->
  is_optimum projects capacity (dp projects (length projects) capacity).
Proof.
  intros Hpos Hcap. rewrite <- (firstn_all projects) at 1. by apply dp_optimum.
Qed.

Lemma dp_full_solve projects capacity :
  positive_hours projects -> 0 <= capacity ->
  dp projects (length projects) capacity = fst (solve projects capacity).
Proof.
  intros Hpos Hcap. eapply is_optimum_unique.
  - by apply dp_full_optimum.
  - by apply solve_optimum.
Qed.

(** ** Capacities of zero and below *)

Lemma greedy_knapsack_nonpositive projects capacity :
  capacity <= 0 -> greedy_knapsack projects capacity = inr (0, []).
Proof.
  intros Hc. unfold greedy_knapsack, greedy_knapsack_by.
  by destruct (Z.leb_spec capacity 0); [|lia].
Qed.

Lemma recursive_knapsack_nonpositive projects capacity :
  capacity <= 0 -> recursive_knapsack projects capacity = (0, []).
Proof. apply solve_base. Qed.

Lemma memoized_knapsack_nonpositive projects capacity :
  capacity <= 0 -> memoized_knapsack projects capacity = (0, []).
Proof.
  intros Hc. rewrite memoized_knapsack_eq_recursive. by apply recursive_knapsack_nonpositive.
Qed.

Lemma bottom_up_knapsack_zero projects :
  positive_hours projects -> bottom_up_knapsack projects 0 = inr (0, []).
Proof.
  intros Hpos.
  destruct (bottom_up_knapsack_spec projects 0 Hpos ltac:(lia))
    as (T & recorded & c & _ & _ & _ & _ & -> & Hsub & _ & Hh).
  rewrite dp_zero_capacity by done.
  by rewrite (total_hours_zero _ (positive_hours_sublist _ _ Hsub Hpos) Hh).
Qed.

(** With a negative capacity every row of the table is empty. *)
Lemma build_table_negative projects capacity :
  capacity < 0 ->
  build_table projects capacity = inr (replicate (S (length projects)) []).
Proof.
  intros Hneg. unfold build_table.
  assert (Hinit : init_table (length projects) capacity
                  = replicate (S (length projects)) []).
  { unfold init_table. by replace (Z.to_nat (capacity + 1)) with 0%nat by lia. }
  rewrite Hinit.
  destruct (for_each_invariant (fill_row projects capacity)
    (fun _ T => T = replicate (S (length projects)) [])
    (range 1 (Z.of_nat (length projects) + 1))
    (replicate (S (length projects)) [])) as (T & -> & ->); [done | | done].
  intros done x rest s Hsplit ->. apply range_split in Hsplit as [-> Hlt].
  destruct (lookup_lt_is_Some_2 projects (length done) ltac:(lia)) as [p Hp].
  unfold fill_row.
  replace (1 + Z.of_nat (length done) - 1) with (Z.of_nat (length done)) by lia.
  rewrite (py_get_nat _ _ _ Hp). cbn [bind].
  unfold range. replace (Z.to_nat (capacity + 1 - 0)) with 0%nat by lia.
  simpl. by eexists.
Qed.

Lemma cell_of_empty_rows m i c :
  cell (replicate m []) i c = inl IndexError.
Proof.
  unfold cell. destruct (py_get (replicate m []) i) as [e|row] eqn:Hrow.
  - unfold py_get, py_index in Hrow. by repeat (case_match; simpl in *; simplify_eq).
  - assert (row = []) as ->; [|apply py_get_empty].
    unfold py_get in Hrow. destruct (py_index _ _) as [|j]; simpl in Hrow; [done|].
    destruct (replicate m [] !! j) as [r|] eqn:Hj; [|done].
    apply lookup_replicate in Hj as [-> _]. congruence.
Qed.

(** * The properties of the specification *)

(** C1. For projects with strictly positive hours and non-negative
    values and a non-negative capacity, the pure recursion, the
    memoised recursion and the bottom-up table each return the true
    0/1-knapsack optimum (the largest value sum over the subsets of the
    input whose hours fit the capacity), and the greedy selector
    returns a value that is not larger. *)
Theorem exact_solvers_return_optimum projects capacity :
  positive_hours projects -> nonneg_values projects -> 0 <= capacity ->
  exists opt,
    is_optimum projects capacity opt /\
    fst (recursive_knapsack projects capacity) = opt /\
    fst (memoized_knapsack projects capacity) = opt /\
    (exists chosen, bottom_up_knapsack projects capacity = inr (opt, chosen)) /\
    (exists g chosen, greedy_knapsack projects capacity = inr (g, chosen) /\ g <= opt).
Proof.
  intros Hpos _ Hcap. exists (fst (solve projects capacity)).
  pose proof (solve_optimum projects capacity Hpos Hcap) as Hopt.
  split; [done|]. split; [done|].
  split; [by rewrite memoized_knapsack_eq_recursive|]. split.
  - destruct (bottom_up_knapsack_spec projects capacity Hpos Hcap)
      as (T & recorded & c & _ & _ & _ & _ & Hbu & _).
    exists (rev recorded). by rewrite <- dp_full_solve.
  - destruct (greedy_knapsack_returns projects capacity Hpos) as (g & chosen & Hg).
    exists g, chosen. split; [done|].
    apply greedy_knapsack_by_sound in Hg as (Hsub & <- & Hh).
    eapply selection_le_optimum; [done | by apply Hh | done].
Qed.

(** C2 (as the code behaves). A negative capacity makes every row of
    the table empty, and the bottom-up solver then raises [IndexError]
    when it reads [T[i][capacity]], whatever the projects. *)
Theorem bottom_up_negative_capacity_raises projects capacity :
  capacity < 0 -> bottom_up_knapsack projects capacity = inl IndexError.
Proof.
  intros Hneg. unfold bottom_up_knapsack.
  rewrite build_table_negative by done. cbn [bind].
  pose proof (cell_of_empty_rows (S (length projects))) as Hcell.
  set (T := replicate (S (length projects)) []) in *. clearbody T.
  destruct projects as [|p rest].
  - simpl. by rewrite Hcell.
  - unfold range_down.
    replace (Z.to_nat (Z.of_nat (length (p :: rest)) - 0))
      with (S (length rest)) by (simpl; lia).
    cbn [seq map for_each]. unfold backtrack_step at 1.
    by rewrite Hcell.
Qed.

(** C3. For projects with strictly positive hours and a non-negative
    capacity, the hours of the subset returned by each of the four
    solvers sum to at most the capacity. *)
Theorem chosen_hours_within_capacity projects capacity :
  positive_hours projects -> 0 <= capacity ->
  (exists g chosen, greedy_knapsack projects capacity = inr (g, chosen) /\
                    total_hours chosen <= capacity) /\
  total_hours (snd (recursive_knapsack projects capacity)) <= capacity /\
  total_hours (snd (memoized_knapsack projects capacity)) <= capacity /\
  (exists v chosen, bottom_up_knapsack projects capacity = inr (v, chosen) /\
                    total_hours chosen <= capacity).
Proof.
  intros Hpos Hcap. split; [|split; [|split]].
  - destruct (greedy_knapsack_returns projects capacity Hpos) as (g & chosen & Hg).
    exists g, chosen. split; [done|].
    apply greedy_knapsack_by_sound in Hg as (_ & _ & Hh). by apply Hh.
  - by apply solve_hours.
  - rewrite memoized_knapsack_eq_recursive. by apply solve_hours.
  - destruct (bottom_up_knapsack_spec projects capacity Hpos Hcap)
      as (T & recorded & c & _ & _ & _ & _ & Hbu & _ & _ & Hh).
    by exists (dp projects (length projects) capacity), (rev recorded).
Qed.

(** C4. For projects with strictly positive hours and a non-negative
    capacity, the value returned by each of the four solvers is the sum
    of the values of the subset it returns; for the bottom-up solver
    the subset recorded by the backtracking walk sums to the table
    entry [T[n][capacity]], which is the value returned. *)
Theorem returned_value_is_sum_of_chosen projects capacity :
  positive_hours projects -> 0 <= capacity ->
  (exists g chosen, greedy_knapsack projects capacity = inr (g, chosen) /\
                    g = total_value chosen) /\
  fst (recursive_knapsack projects capacity)
    = total_value (snd (recursive_knapsack projects capacity)) /\
  fst (memoized_knapsack projects capacity)
    = total_value (snd (memoized_knapsack projects capacity)) /\
  (exists T v chosen,
     build_table projects capacity = inr T /\
     cell T (Z.of_nat (length projects)) capacity = inr v /\
     bottom_up_knapsack projects capacity = inr (v, chosen) /\
     v = total_value chosen).
Proof.
  intros Hpos Hcap. split; [|split; [|split]].
  - destruct (greedy_knapsack_returns projects capacity Hpos) as (g & chosen & Hg).
    exists g, chosen. split; [done|].
    by apply greedy_knapsack_by_sound in Hg as (_ & <- & _).
  - symmetry. apply solve_value.
  - rewrite memoized_knapsack_eq_recursive. symmetry. apply solve_value.
  - destruct (bottom_up_knapsack_spec projects capacity Hpos Hcap)
      as (T & recorded & c & HT & _ & Hrows & _ & Hbu & _ & Hv & _).
    exists T, (dp projects (length projects) capacity), (rev recorded).
    split; [done|]. split; [|by split].
    apply (cell_filled projects capacity Hcap T Hrows); lia.
Qed.

(** C5. On the same input (strictly positive hours, non-negative
    capacity) the three exact solvers return the same value, and the
    memoised recursion returns the very pair of the pure recursion. *)
Theorem exact_solvers_agree projects capacity :
  positive_hours projects -> 0 <= capacity ->
  memoized_knapsack projects capacity = recursive_knapsack projects capacity /\
  exists chosen,
    bottom_up_knapsack projects capacity
      = inr (fst (recursive_knapsack projects capacity), chosen).
Proof.
  intros Hpos Hcap. split; [apply memoized_knapsack_eq_recursive|].
  destruct (bottom_up_knapsack_spec projects capacity Hpos Hcap)
    as (T & recorded & c & _ & _ & _ & _ & Hbu & _).
  exists (rev recorded). unfold recursive_knapsack. by rewrite <- dp_full_solve.
Qed.

(** C6. For [n] projects with strictly positive hours and a
    non-negative capacity, the table built by the bottom-up solver has
    [n+1] rows of [capacity+1] cells, [T[i][c]] is the optimum over the
    first [i] projects under capacity [c], row [0] and column [0] are
    zero, and the value returned is [T[n][capacity]]. *)
Theorem table_holds_prefix_optima projects capacity :
  positive_hours projects -> 0 <= capacity ->
  exists T,
    build_table projects capacity = inr T /\
    shaped (length projects) capacity T /\
    (forall (i : nat) c, (i <= length projects)%nat -> 0 <= c <= capacity ->
       exists v, cell T (Z.of_nat i) c = inr v /\ is_optimum (take i projects) c v) /\
    (forall c, 0 <= c <= capacity -> cell T 0 c = inr 0) /\
    (forall i : nat, (i <= length projects)%nat -> cell T (Z.of_nat i) 0 = inr 0) /\
    exists v chosen,
      cell T (Z.of_nat (length projects)) capacity = inr v /\
      bottom_up_knapsack projects capacity = inr (v, chosen).
Proof.
  intros Hpos Hcap.
  destruct (bottom_up_knapsack_spec projects capacity Hpos Hcap)
    as (T & recorded & c & HT & Hshape & Hrows & _ & Hbu & _).
  pose proof (cell_filled projects capacity Hcap T Hrows) as Hcell.
  exists T. split; [done|]. split; [done|]. split; [|split; [|split]].
  - intros i c' Hi Hc'. exists (dp projects i c'). split; [by apply Hcell|].
    apply dp_optimum; [done | done | lia].
  - intros c' Hc'. apply (Hcell 0%nat c'); [lia | done].
  - intros i Hi. rewrite Hcell by (done || lia). by rewrite dp_zero_capacity.
  - exists (dp projects (length projects) capacity), (rev recorded).
    split; [apply Hcell; lia | done].
Qed.

(** The case analysis of the memoised recursion on a key that is not
    cached yet. *)
Lemma solve_memo_uncached project rest i remaining memo :
  0 < remaining -> memo !! (i, remaining) = None ->
  fst (solve_memo (project :: rest) i remaining memo) =
    let without := solve_memo rest (S i) remaining memo in
    let sub := solve_memo rest (S i) (remaining - hours project) (snd without) in
    let value_with :=
      if hours project <=? remaining then fst (fst sub) + value project else -1 in
    let list_with :=
      if hours project <=? remaining then project :: snd (fst sub) else [] in
    if value_with >? fst (fst without) then (value_with, list_with) else fst without.
Proof.
  intros Hr Hlook. cbn [solve_memo].
  destruct (Z.leb_spec remaining 0); [lia|]. rewrite Hlook.
  destruct (solve_memo rest (S i) remaining memo) as [[vw lw] memo1]. cbn [fst snd].
  destruct (hours project <=? remaining).
  - destruct (solve_memo rest (S i) (remaining - hours project) memo1) as [[sv sl] memo2].
    cbn [fst snd]. by destruct (_ >? _).
  - cbn [fst snd]. by destruct (_ >? _).
Qed.

(** C7. In the case analysis of the pure and of the memoised
    recursion the including branch is returned only when its value is
    strictly greater than the excluding one: on equal values the
    excluding branch's pair is returned.  For the memoised recursion
    this is the analysis of a key not cached yet, with a dictionary
    filled by earlier calls on the same project list. *)
Theorem ties_favor_exclusion projects project rest remaining i memo :
  0 < remaining ->
  (hours project <= remaining ->
   fst (solve rest (remaining - hours project)) + value project
     = fst (solve rest remaining) ->
   solve (project :: rest) remaining = solve rest remaining) /\
  (solve (project :: rest) remaining <> solve rest remaining ->
   hours project <= remaining /\
   fst (solve rest remaining)
     < fst (solve rest (remaining - hours project)) + value project /\
   solve (project :: rest) remaining
     = (fst (solve rest (remaining - hours project)) + value project,
        project :: snd (solve rest (remaining - hours project)))) /\
  (project :: rest = drop i projects -> memo_ok projects memo ->
   memo !! (i, remaining) = None ->
   let without := solve_memo rest (S i) remaining memo in
   let sub := solve_memo rest (S i) (remaining - hours project) (snd without) in
   (hours project <= remaining ->
    fst (fst sub) + value project = fst (fst without) ->
    fst (solve_memo (project :: rest) i remaining memo) = fst without) /\
   (fst (solve_memo (project :: rest) i remaining memo) <> fst without ->
    hours project <= remaining /\
    fst (fst without) < fst (fst sub) + value project /\
    fst (solve_memo (project :: rest) i remaining memo)
      = (fst (fst sub) + value project, project :: snd (fst sub)))).
Proof.
  intros Hr. split; [|split].
  - intros Hfit Htie. rewrite solve_cons by done. unfold with_branch, without_branch.
    destruct (Z.leb_spec (hours project) remaining); [|lia]. cbn [fst].
    rewrite Htie, Z.gtb_ltb, Z.ltb_irrefl. done.
  - rewrite solve_cons by done. unfold with_branch, without_branch.
    destruct (Z.leb_spec (hours project) remaining) as [Hfit|Hbig]; cbn [fst].
    + rewrite Z.gtb_ltb. destruct (Z.ltb_spec (fst (solve rest remaining))
        (fst (solve rest (remaining - hours project)) + value project)); [done|].
      intros Hne. by destruct Hne.
    + pose proof (solve_nonneg rest remaining).
      rewrite Z.gtb_ltb. destruct (Z.ltb_spec (fst (solve rest remaining)) (-1)); [lia|].
      intros Hne. by destruct Hne.
  - intros Hsuf Hok Hlook. cbn zeta.
    rewrite (solve_memo_uncached project rest i remaining memo Hr Hlook). cbn zeta.
    pose proof (drop_cons_next _ _ _ _ Hsuf) as Hrest.
    destruct (solve_memo_correct projects rest (S i) remaining memo Hrest Hok) as [Hw _].
    set (without := solve_memo rest (S i) remaining memo) in *.
    set (sub := solve_memo rest (S i) (remaining - hours project) (snd without)).
    split.
    + intros Hfit Htie. destruct (Z.leb_spec (hours project) remaining); [|lia].
      by rewrite Htie, Z.gtb_ltb, Z.ltb_irrefl.
    + destruct (Z.leb_spec (hours project) remaining) as [Hfit|Hbig].
      * rewrite Z.gtb_ltb.
        destruct (Z.ltb_spec (fst (fst without)) (fst (fst sub) + value project)); [done|].
        intros Hne. by destruct Hne.
      * pose proof (solve_nonneg rest remaining) as Hnn. rewrite <- Hw in Hnn.
        rewrite Z.gtb_ltb. destruct (Z.ltb_spec (fst (fst without)) (-1)); [lia|].
        intros Hne. by destruct Hne.
Qed.

(** C8. On X1 (60, 10 h), X2 (100, 20 h), X3 (120, 30 h) with capacity
    50 the three exact solvers return 220 with the subset X2, X3, and
    the greedy selector returns 160 with X1, X2, which is strictly
    less. *)
Theorem greedy_fails_scenario :
  let X1 := mkProject "X1" 60 10 in
  let X2 := mkProject "X2" 100 20 in
  let X3 := mkProject "X3" 120 30 in
  recursive_knapsack [X1; X2; X3] 50 = (220, [X2; X3]) /\
  memoized_knapsack [X1; X2; X3] 50 = (220, [X2; X3]) /\
  bottom_up_knapsack [X1; X2; X3] 50 = inr (220, [X2; X3]) /\
  greedy_knapsack [X1; X2; X3] 50 = inr (160, [X1; X2]) /\
  160 < 220.
Proof. cbn zeta. repeat split; vm_compute; reflexivity. Qed.

(** C9. For projects with strictly positive hours and a non-negative
    capacity, each exact solver returns its subset as a subsequence of
    the input, in input order and without repeating a position; the
    bottom-up solver returns the reverse of the list recorded by its
    descending walk. *)
Theorem exact_solvers_keep_input_order projects capacity :
  positive_hours projects -> 0 <= capacity ->
  snd (recursive_knapsack projects capacity) `sublist_of` projects /\
  snd (memoized_knapsack projects capacity) `sublist_of` projects /\
  exists T v recorded c,
    build_table projects capacity = inr T /\
    for_each (backtrack_step projects T)
      (range_down (Z.of_nat (length projects)) 0) ([], capacity) = inr (recorded, c) /\
    bottom_up_knapsack projects capacity = inr (v, rev recorded) /\
    rev recorded `sublist_of` projects.
Proof.
  intros Hpos Hcap. split; [apply solve_sublist|]. split.
  - rewrite memoized_knapsack_eq_recursive. apply solve_sublist.
  - destruct (bottom_up_knapsack_spec projects capacity Hpos Hcap)
      as (T & recorded & c & HT & _ & _ & Hwalk & Hbu & Hsub & _).
    by exists T, (dp projects (length projects) capacity), recorded, c.
Qed.

(** C10. When every project has strictly positive hours, the ratio of
    the greedy sort key never divides by zero: every key is computed,
    and for every capacity the selector returns a result and does not
    raise [ZeroDivisionError]. *)
Theorem greedy_ratio_never_divides_by_zero projects capacity :
  positive_hours projects ->
  (forall p, p ∈ projects -> exists q, ratio p = inr q) /\
  greedy_knapsack projects capacity <> inl ZeroDivisionError /\
  exists res, greedy_knapsack projects capacity = inr res.
Proof.
  intros Hpos. split; [|split].
  - intros p Hp. unfold positive_hours in Hpos. rewrite Forall_forall in Hpos.
    specialize (Hpos p Hp). unfold ratio.
    destruct (Z.eqb_spec (hours p) 0); [lia | by eexists].
  - destruct (greedy_knapsack_returns projects capacity Hpos) as (g & chosen & ->). done.
  - destruct (greedy_knapsack_returns projects capacity Hpos) as (g & chosen & ->).
    by eexists.
Qed.

(** * Instances on the scenarios of [run_tests] *)

Lemma exact_solvers_return_optimum_witness :
  exists opt,
    is_optimum projects_fail 50 opt /\
    fst (recursive_knapsack projects_fail 50) = opt /\
    fst (memoized_knapsack projects_fail 50) = opt /\
    (exists chosen, bottom_up_knapsack projects_fail 50 = inr (opt, chosen)) /\
    (exists g chosen, greedy_knapsack projects_fail 50 = inr (g, chosen) /\ g <= opt).
Proof.
  apply (exact_solvers_return_optimum projects_fail 50); [each_project | each_project | lia].
Defined.

Lemma bottom_up_negative_capacity_raises_witness :
  bottom_up_knapsack projects_small (-1) = inl IndexError.
Proof. apply (bottom_up_negative_capacity_raises projects_small (-1)). lia. Defined.

Lemma chosen_hours_within_capacity_witness :
  (exists g chosen, greedy_knapsack projects_example 10 = inr (g, chosen) /\
                    total_hours chosen <= 10) /\
  total_hours (snd (recursive_knapsack projects_example 10)) <= 10 /\
  total_hours (snd (memoized_knapsack projects_example 10)) <= 10 /\
  (exists v chosen, bottom_up_knapsack projects_example 10 = inr (v, chosen) /\
                    total_hours chosen <= 10).
Proof.
  apply (chosen_hours_within_capacity projects_example 10); [each_project | lia].
Defined.

Lemma returned_value_is_sum_of_chosen_witness :
  (exists g chosen, greedy_knapsack projects_extra 5 = inr (g, chosen) /\
                    g = total_value chosen) /\
  fst (recursive_knapsack projects_extra 5)
    = total_value (snd (recursive_knapsack projects_extra 5)) /\
  fst (memoized_knapsack projects_extra 5)
    = total_value (snd (memoized_knapsack projects_extra 5)) /\
  (exists T v chosen,
     build_table projects_extra 5 = inr T /\
     cell T (Z.of_nat (length projects_extra)) 5 = inr v /\
     bottom_up_knapsack projects_extra 5 = inr (v, chosen) /\
     v = total_value chosen).
Proof.
  apply (returned_value_is_sum_of_chosen projects_extra 5); [each_project | lia].
Defined.

Lemma exact_solvers_agree_witness :
  memoized_knapsack projects_small 3 = recursive_knapsack projects_small 3 /\
  exists chosen,
    bottom_up_knapsack projects_small 3
      = inr (fst (recursive_knapsack projects_small 3), chosen).
Proof. apply (exact_solvers_agree projects_small 3); [each_project | lia]. Defined.

Lemma table_holds_prefix_optima_witness :
  exists T,
    build_table projects_fail 50 = inr T /\
    shaped (length projects_fail) 50 T /\
    (forall (i : nat) c, (i <= length projects_fail)%nat -> 0 <= c <= 50 ->
       exists v, cell T (Z.of_nat i) c = inr v /\ is_optimum (take i projects_fail) c v) /\
    (forall c, 0 <= c <= 50 -> cell T 0 c = inr 0) /\
    (forall i : nat, (i <= length projects_fail)%nat -> cell T (Z.of_nat i) 0 = inr 0) /\
    exists v chosen,
      cell T (Z.of_nat (length projects_fail)) 50 = inr v /\
      bottom_up_knapsack projects_fail 50 = inr (v, chosen).
Proof. apply (table_holds_prefix_optima projects_fail 50); [each_project | lia]. Defined.

Lemma ties_favor_exclusion_witness :
  solve projects_tie 2 = (5, [mkProject "B" 5 2]) /\
  fst (solve_memo projects_tie 0%nat 2 ∅) = (5, [mkProject "B" 5 2]).
Proof.
  destruct (ties_favor_exclusion projects_tie (mkProject "A" 5 2) [mkProject "B" 5 2]
              2 0%nat ∅ ltac:(lia)) as (Hpure & _ & Hmemo).
  split.
  - apply Hpure; [simpl; lia | reflexivity].
  - apply Hmemo; [reflexivity | | reflexivity | simpl; lia | reflexivity].
    intros j r res Hlook. rewrite lookup_empty in Hlook. discriminate.
Defined.

Lemma exact_solvers_keep_input_order_witness :
  snd (recursive_knapsack projects_example 10) `sublist_of` projects_example /\
  snd (memoized_knapsack projects_example 10) `sublist_of` projects_example /\
  exists T v recorded c,
    build_table projects_example 10 = inr T /\
    for_each (backtrack_step projects_example T)
      (range_down (Z.of_nat (length projects_example)) 0) ([], 10) = inr (recorded, c) /\
    bottom_up_knapsack projects_example 10 = inr (v, rev recorded) /\
    rev recorded `sublist_of` projects_example.
Proof.
  apply (exact_solvers_keep_input_order projects_example 10); [each_project | lia].
Defined.

Lemma greedy_ratio_never_divides_by_zero_witness :
  (forall p, p ∈ projects_example -> exists q, ratio p = inr q) /\
  greedy_knapsack projects_example 10 <> inl ZeroDivisionError /\
  exists res, greedy_knapsack projects_example 10 = inr res.
Proof. apply (greedy_ratio_never_divides_by_zero projects_example 10). each_project. Defined.

(** The five scenarios, with the expected optimum of each. *)
Example scenario_example :
  fst (recursive_knapsack projects_example 10) = 29 /\
  fst (memoized_knapsack projects_example 10) = 29 /\
  (exists chosen, bottom_up_knapsack projects_example 10 = inr (29, chosen)) /\
  (exists chosen, greedy_knapsack projects_example 10 = inr (29, chosen)).
Proof. repeat split; try eexists; vm_compute; reflexivity. Qed.

Example scenario_empty :
  recursive_knapsack [] 10 = (0, []) /\ memoized_knapsack [] 10 = (0, []) /\
  bottom_up_knapsack [] 10 = inr (0, []) /\ greedy_knapsack [] 10 = inr (0, []).
Proof. repeat split; vm_compute; reflexivity. Qed.

Example scenario_small :
  recursive_knapsack projects_small 3 = (0, []) /\
  memoized_knapsack projects_small 3 = (0, []) /\
  bottom_up_knapsack projects_small 3 = inr (0, []) /\
  greedy_knapsack projects_small 3 = inr (0, []).
Proof. repeat split; vm_compute; reflexivity. Qed.

Example scenario_extra :
  fst (recursive_knapsack projects_extra 5) = 9 /\
  fst (memoized_knapsack projects_extra 5) = 9 /\
  (exists chosen, bottom_up_knapsack projects_extra 5 = inr (9, chosen)) /\
  (exists chosen, greedy_knapsack projects_extra 5 = inr (9, chosen)).
Proof. repeat split; try eexists; vm_compute; reflexivity. Qed.

(** Outside the supported inputs: a project with zero hours makes the
    greedy key raise, and lets the table take it at capacity zero. *)
Example zero_hours_project :
  greedy_knapsack [mkProject "Z" 5 0] 1 = inl ZeroDivisionError /\
  bottom_up_knapsack [mkProject "Z" 5 0] 0 = inr (5, [mkProject "Z" 5 0]) /\
  recursive_knapsack [mkProject "Z" 5 0] 0 = (0, []).
Proof. repeat split; vm_compute; reflexivity. Qed.

(** * Further properties of the code *)

(** ** Greedy selector: exceptions *)



(** ** Greedy selector: what is left out does not fit *)

Lemma greedy_scan_skipped (l : list Project) total chosen remaining :
  positive_hours l ->
  exists added skipped,
    fold_left greedy_step l (total, chosen, remaining)
      = (total + total_value added, chosen ++ added, remaining - total_hours added) /\
    added ++ skipped ≡ₚ l /\
    forall p, p ∈ skipped -> remaining - total_hours added < hours p.
Proof.
  intros Hpos. revert total chosen remaining.
  induction l as [|p l IH]; intros t ch r.
  - exists [], []. simpl. rewrite app_nil_r, Z.add_0_r, Z.sub_0_r.
    split; [done|]. split; [done|]. intros q Hq. by apply elem_of_nil in Hq.
  - inversion Hpos as [|? ? Hp Hl]; subst. specialize (IH Hl).
    cbn [fold_left greedy_step]. destruct (Z.leb_spec (hours p) r) as [Hfit|Hbig].
    + destruct (IH (t + value p) (ch ++ [p]) (r - hours p))
        as (added & skipped & -> & Hperm & Hskip).
      exists (p :: added), skipped. simpl. rewrite <- app_assoc. simpl.
      split; [f_equal; [f_equal|]; lia|]. split; [by rewrite Hperm|].
      intros q Hq. specialize (Hskip q Hq). lia.
    + destruct (IH t ch r) as (added & skipped & -> & Hperm & Hskip).
      exists added, (p :: skipped). split; [done|]. split.
      * by rewrite <- Permutation_middle, Hperm.
      * intros q Hq. apply elem_of_cons in Hq as [->|Hq]; [|by apply Hskip].
        assert (Hadd : positive_hours added).
        { unfold positive_hours in *. rewrite <- Hperm in Hl.
          by apply Forall_app in Hl as [Hl _]. }
        apply total_hours_nonneg in Hadd. lia.
Qed.

Lemma greedy_knapsack_by_maximal {K : Type} (key : Project -> result K) klt
    projects capacity g chosen :
  positive_hours projects ->
  greedy_knapsack_by key klt projects capacity = inr (g, chosen) ->
  exists skipped,
    chosen ++ skipped ≡ₚ projects /\
    forall p, p ∈ skipped -> capacity - total_hours chosen < hours p.
Proof.
  intros Hpos. unfold greedy_knapsack_by.
  destruct (Z.leb_spec capacity 0) as [Hc|Hc]; simpl.
  { intros [= <- <-]. exists projects. split; [done|]. intros p Hp. simpl.
    unfold positive_hours in Hpos. rewrite Forall_forall in Hpos.
    specialize (Hpos p Hp). lia. }
  case_bool_decide as Hnil.
  { intros [= <- <-]. exists []. subst. split; [done|].
    intros p Hp. by apply elem_of_nil in Hp. }
  destruct (keyed key projects) as [e|kps] eqn:Hk; simpl; [done|].
  assert (Hperm : map snd (sorted_desc klt kps) ≡ₚ projects).
  { by rewrite sorted_desc_perm, (keyed_projects _ _ _ Hk). }
  assert (Hpos' : positive_hours (map snd (sorted_desc klt kps))).
  { unfold positive_hours. by rewrite Hperm. }
  unfold greedy_scan.
  destruct (greedy_scan_skipped _ 0 [] capacity Hpos')
    as (added & skipped & -> & Hp & Hskip).
  intros [= <- <-]. simpl. exists skipped. split; [by rewrite Hp|done].
Qed.

(** X2. With strictly positive hours the greedy selection is maximal:
    the input splits into the chosen projects and the skipped ones, and
    no skipped project fits into the capacity the chosen ones leave. *)
Theorem greedy_leaves_nothing_that_fits projects capacity :
  positive_hours projects ->
  exists g chosen skipped,
    greedy_knapsack projects capacity = inr (g, chosen) /\
    chosen ++ skipped ≡ₚ projects /\
    forall p, p ∈ skipped -> capacity - total_hours chosen < hours p.
Proof.
  intros Hpos.
  destruct (greedy_knapsack_returns projects capacity Hpos) as (g & chosen & Hg).
  destruct (greedy_knapsack_by_maximal _ _ _ _ _ _ Hpos Hg) as (skipped & Hperm & Hskip).
  by exists g, chosen, skipped.
Qed.

(** X3. When all the projects together fit the capacity (hours
    strictly positive), the greedy selector takes every one of them and
    returns the sum of all the values. *)
Theorem greedy_takes_all_when_all_fit projects capacity :
  positive_hours projects -> total_hours projects <= capacity ->
  exists chosen,
    greedy_knapsack projects capacity = inr (total_value projects, chosen) /\
    chosen ≡ₚ projects.
Proof.
  intros Hpos Hfit.
  destruct (greedy_knapsack_returns projects capacity Hpos) as (g & chosen & Hg).
  destruct (greedy_knapsack_by_maximal _ _ _ _ _ _ Hpos Hg) as (skipped & Hperm & Hskip).
  assert (skipped = []) as ->.
  { destruct skipped as [|p skipped]; [done|].
    specialize (Hskip p ltac:(apply list_elem_of_here)).
    rewrite <- (total_hours_perm _ _ Hperm), total_hours_app in Hfit. simpl in Hfit.
    assert (Hsk : positive_hours skipped).
    { unfold positive_hours in *. rewrite <- Hperm in Hpos.
      apply Forall_app in Hpos as [_ Hpos]. by inversion Hpos. }
    apply total_hours_nonneg in Hsk. lia. }
  rewrite app_nil_r in Hperm. exists chosen. split; [|done].
  apply greedy_knapsack_by_sound in Hg as Hs. destruct Hs as (_ & <- & _).
  by rewrite Hg, (total_value_perm _ _ Hperm).
Qed.

(** ** Greedy selector: the order of the selection *)










(** ** The memo dictionary *)

Lemma solve_memo_uncached_memo project rest i remaining memo :
  0 < remaining -> memo !! (i, remaining) = None ->
  snd (solve_memo (project :: rest) i remaining memo) =
    <[(i, remaining) := fst (solve_memo (project :: rest) i remaining memo)]>
      (if hours project <=? remaining
       then snd (solve_memo rest (S i) (remaining - hours project)
                   (snd (solve_memo rest (S i) remaining memo)))
       else snd (solve_memo rest (S i) remaining memo)).
Proof.
  intros Hr Hlook. cbn [solve_memo].
  destruct (Z.leb_spec remaining 0); [lia|]. rewrite Hlook.
  destruct (solve_memo rest (S i) remaining memo) as [[vw lw] memo1]. cbn [fst snd].
  destruct (hours project <=? remaining); [|done].
  by destruct (solve_memo rest (S i) (remaining - hours project) memo1) as [[sv sl] memo2].
Qed.

Lemma solve_memo_cached suffix i remaining memo cached :
  suffix <> [] -> 0 < remaining -> memo !! (i, remaining) = Some cached ->
  solve_memo suffix i remaining memo = (cached, memo).
Proof.
  intros Hne Hr Hlook. destruct suffix as [|p rest]; [done|]. cbn [solve_memo].
  destruct (Z.leb_spec remaining 0); [lia|]. by rewrite Hlook.
Qed.

(** What a call does to the dictionary: the entries it finds stay, and
    every entry it adds has an index within the suffix, a positive
    remaining capacity and, with positive hours, one not above the
    capacity of the call. *)
Lemma solve_memo_keys suffix i remaining memo :
  memo ⊆ snd (solve_memo suffix i remaining memo) /\
  forall j r res,
    snd (solve_memo suffix i remaining memo) !! (j, r) = Some res ->
    memo !! (j, r) = Some res \/
    ((i <= j < i + length suffix)%nat /\ 0 < r /\
     (positive_hours suffix -> r <= remaining)).
Proof.
  revert i remaining memo.
  induction suffix as [|p rest IH]; intros i r memo; [simpl; by auto|].
  destruct (Z_le_gt_dec r 0) as [Hr|Hr].
  { cbn [solve_memo]. destruct (Z.leb_spec r 0); [|lia]. simpl. by auto. }
  destruct (memo !! (i, r)) as [cached|] eqn:Hlook.
  { rewrite (solve_memo_cached _ _ _ _ cached) by (done || lia). simpl. by auto. }
  rewrite solve_memo_uncached_memo by (done || lia).
  set (best := fst (solve_memo (p :: rest) i r memo)).
  destruct (IH (S i) r memo) as [Hsub1 Hkeys1].
  set (memo1 := snd (solve_memo rest (S i) r memo)) in *.
  assert (Hnew : forall memo2 : memo_t,
    memo1 ⊆ memo2 ->
    (forall j r' res, memo2 !! (j, r') = Some res ->
       memo1 !! (j, r') = Some res \/
       ((S i <= j < S i + length rest)%nat /\ 0 < r' /\
        (positive_hours rest -> 0 < hours p -> r' <= r))) ->
    memo ⊆ <[(i, r) := best]> memo2 /\
    forall j r' res, <[(i, r) := best]> memo2 !! (j, r') = Some res ->
      memo !! (j, r') = Some res \/
      ((i <= j < i + length (p :: rest))%nat /\ 0 < r' /\
       (positive_hours (p :: rest) -> r' <= r))).
  { intros memo2 Hsub2 Hkeys2. split.
    - apply insert_subseteq_r; [done|]. by trans memo1.
    - intros j r' res. destruct (decide ((i, r) = (j, r'))) as [[= <- <-]|Hne].
      + intros _. right. simpl. split; [lia|]. split; [lia|]. intros _. lia.
      + rewrite lookup_insert_ne by done. intros Hres.
        destruct (Hkeys2 _ _ _ Hres) as [Hold|(Hj & Hr' & Hle)].
        * destruct (Hkeys1 _ _ _ Hold) as [?|(Hj & Hr' & Hle)]; [by left|].
          right. simpl. split; [lia|]. split; [done|].
          intros Hpos. inversion Hpos; subst. by apply Hle.
        * right. simpl. split; [lia|]. split; [done|].
          intros Hpos. inversion Hpos; subst. by apply Hle. }
  destruct (Z.leb_spec (hours p) r) as [Hfit|Hbig].
  - destruct (IH (S i) (r - hours p) memo1) as [Hsub2 Hkeys2].
    apply Hnew; [done|]. intros j r' res Hres.
    destruct (Hkeys2 _ _ _ Hres) as [?|(Hj & Hr' & Hle)]; [by left|].
    right. split; [done|]. split; [done|]. intros Hpos Hp. specialize (Hle Hpos). lia.
  - apply Hnew; [done|]. intros j r' res Hres.
    destruct (Hkeys1 _ _ _ Hres) as [?|(Hj & Hr' & Hle)]; [by left|].
    right. split; [done|]. split; [done|]. intros Hpos _. by apply Hle.
Qed.

(** X5. A call of the memoised recursion never removes or overwrites
    an entry of the dictionary, and when it is past the base case
    (non-empty suffix, positive remaining capacity) its own key is in
    the dictionary afterwards, holding the pair it returned. *)
Theorem memo_grows_and_stores_result suffix i remaining memo :
  memo ⊆ snd (solve_memo suffix i remaining memo) /\
  (suffix <> [] -> 0 < remaining ->
   snd (solve_memo suffix i remaining memo) !! (i, remaining)
     = Some (fst (solve_memo suffix i remaining memo))).
Proof.
  split; [apply solve_memo_keys|]. intros Hne Hr.
  destruct (memo !! (i, remaining)) as [cached|] eqn:Hlook.
  - by rewrite (solve_memo_cached _ _ _ _ cached).
  - destruct suffix as [|p rest]; [done|].
    rewrite solve_memo_uncached_memo by done. apply lookup_insert_eq.
Qed.

(** X6. After a run of the memoised solver from the empty dictionary,
    every entry has an index below the number of projects and a
    positive remaining capacity (at most the capacity when hours are
    positive), and holds what the pure recursion returns on its key;
    base cases are never cached. *)
Theorem memo_entries_after_run projects capacity i r res :
  snd (solve_memo projects 0%nat capacity ∅) !! (i, r) = Some res ->
  (i < length projects)%nat /\ 0 < r /\
  res = solve (drop i projects) r /\
  (positive_hours projects -> r <= capacity).
Proof.
  intros Hres.
  destruct (solve_memo_keys projects 0%nat capacity ∅) as [_ Hkeys].
  destruct (Hkeys _ _ _ Hres) as [Hempty|(Hi & Hr & Hle)].
  { by rewrite lookup_empty in Hempty. }
  split; [lia|]. split; [done|]. split; [|done].
  destruct (solve_memo_correct projects projects 0%nat capacity ∅) as [_ Hok].
  - by rewrite drop_0.
  - apply memo_ok_empty.
  - by apply Hok.
Qed.

(** X7. Whatever key the projects are sorted by and however it orders
    them (the float ratio of the source included), a selection the
    greedy loop returns is drawn from the input without repetition,
    sums to the returned value and fits a non-negative capacity; and
    an exception can only come from the key of some project. *)
Theorem greedy_sound_for_any_key {K : Type} (key : Project -> result K)
    (klt : K -> K -> bool) projects capacity :
  (forall g chosen,
     greedy_knapsack_by key klt projects capacity = inr (g, chosen) ->
     chosen ⊆+ projects /\ total_value chosen = g /\
     (0 <= capacity -> total_hours chosen <= capacity)) /\
  (forall e,
     greedy_knapsack_by key klt projects capacity = inl e ->
     exists p, p ∈ projects /\ key p = inl e).
Proof.
  split.
  - intros g chosen. apply greedy_knapsack_by_sound.
  - intros e. apply greedy_knapsack_by_raises.
Qed.

(** ** The recursive solvers on any input *)

(** X8. On every input, also with zero or negative hours and negative
    values, the pure and the memoised recursion return the same pair;
    its subset is a subsequence of the input whose values sum to the
    returned value, the value is never negative, and the hours fit
    whenever the capacity is not negative. *)
Theorem recursion_sound_on_any_input projects capacity :
  memoized_knapsack projects capacity = recursive_knapsack projects capacity /\
  snd (recursive_knapsack projects capacity) `sublist_of` projects /\
  total_value (snd (recursive_knapsack projects capacity))
    = fst (recursive_knapsack projects capacity) /\
  0 <= fst (recursive_knapsack projects capacity) /\
  (0 <= capacity -> total_hours (snd (recursive_knapsack projects capacity)) <= capacity).
Proof.
  split; [apply memoized_knapsack_eq_recursive|]. unfold recursive_knapsack.
  split; [apply solve_sublist|]. split; [apply solve_value|].
  split; [apply solve_nonneg | apply solve_hours].
Qed.

(** ** The optimum as a function of the input *)

Lemma is_optimum_mono projects c c' v v' :
  c <= c' -> is_optimum projects c v -> is_optimum projects c' v' -> v <= v'.
Proof.
  intros Hle [(s & [Hs Hh] & <-) _] [_ Hmax]. apply Hmax. split; [done | lia].
Qed.

Lemma bottom_up_value projects capacity :
  positive_hours projects -> 0 <= capacity ->
  exists chosen,
    bottom_up_knapsack projects capacity = inr (fst (solve projects capacity), chosen).
Proof.
  intros Hpos Hcap.
  destruct (bottom_up_knapsack_spec projects capacity Hpos Hcap)
    as (T & recorded & c & _ & _ & _ & _ & Hbu & _).
  exists (rev recorded). by rewrite <- dp_full_solve.
Qed.

(** X9. A larger capacity never lowers the value of the exact solvers
    (hours strictly positive). *)
Theorem exact_value_monotone_in_capacity projects c c' :
  positive_hours projects -> 0 <= c -> c <= c' ->
  fst (recursive_knapsack projects c) <= fst (recursive_knapsack projects c') /\
  fst (memoized_knapsack projects c) <= fst (memoized_knapsack projects c') /\
  exists v v' chosen chosen',
    bottom_up_knapsack projects c = inr (v, chosen) /\
    bottom_up_knapsack projects c' = inr (v', chosen') /\ v <= v'.
Proof.
  intros Hpos Hc Hle.
  assert (Hmono : fst (solve projects c) <= fst (solve projects c')).
  { eapply is_optimum_mono; [exact Hle | |]; apply solve_optimum; (done || lia). }
  split; [done|]. split; [by rewrite !memoized_knapsack_eq_recursive|].
  destruct (bottom_up_value projects c Hpos Hc) as [chosen Hbu].
  destruct (bottom_up_value projects c' Hpos ltac:(lia)) as [chosen' Hbu'].
  by exists (fst (solve projects c)), (fst (solve projects c')), chosen, chosen'.
Qed.

(** X10. The value of the exact solvers does not depend on the order
    in which the projects are listed (hours strictly positive,
    capacity not negative); the subsets may differ. *)
Theorem exact_value_order_independent projects projects' capacity :
  projects ≡ₚ projects' -> positive_hours projects -> 0 <= capacity ->
  fst (recursive_knapsack projects capacity) = fst (recursive_knapsack projects' capacity) /\
  fst (memoized_knapsack projects capacity) = fst (memoized_knapsack projects' capacity) /\
  exists v chosen chosen',
    bottom_up_knapsack projects capacity = inr (v, chosen) /\
    bottom_up_knapsack projects' capacity = inr (v, chosen').
Proof.
  intros Hperm Hpos Hcap.
  assert (Hpos' : positive_hours projects').
  { unfold positive_hours in *. by rewrite <- Hperm. }
  assert (Heq : fst (solve projects capacity) = fst (solve projects' capacity)).
  { eapply is_optimum_unique; [|by apply solve_optimum].
    eapply is_optimum_perm; [exact Hperm | by apply solve_optimum]. }
  split; [done|]. split; [by rewrite !memoized_knapsack_eq_recursive|].
  destruct (bottom_up_value projects capacity Hpos Hcap) as [chosen Hbu].
  destruct (bottom_up_value projects' capacity Hpos' Hcap) as [chosen' Hbu'].
  exists (fst (solve projects capacity)), chosen, chosen'. split; [done|].
  by rewrite Heq.
Qed.

Lemma sublist_value_le s projects :
  nonneg_values projects -> s `sublist_of` projects -> total_value s <= total_value projects.
Proof.
  intros Hnn Hs. induction Hs as [|x s l Hs IH|x s l Hs IH]; simpl; [lia| |];
    inversion Hnn; subst; specialize (IH ltac:(done)); lia.
Qed.

(** X11. When all the projects together fit the capacity (hours
    strictly positive, values not negative), every exact solver
    returns the sum of all the values. *)
Theorem exact_value_when_all_fit projects capacity :
  positive_hours projects -> nonneg_values projects ->
  total_hours projects <= capacity ->
  fst (recursive_knapsack projects capacity) = total_value projects /\
  fst (memoized_knapsack projects capacity) = total_value projects /\
  exists chosen, bottom_up_knapsack projects capacity = inr (total_value projects, chosen).
Proof.
  intros Hpos Hnn Hfit.
  assert (Hcap : 0 <= capacity) by (pose proof (total_hours_nonneg _ Hpos); lia).
  assert (Heq : fst (solve projects capacity) = total_value projects).
  { eapply is_optimum_unique; [by apply solve_optimum|]. split.
    - exists projects. by repeat split.
    - intros s [Hs _]. by apply sublist_value_le. }
  split; [done|]. split; [by rewrite memoized_knapsack_eq_recursive|].
  destruct (bottom_up_value projects capacity Hpos Hcap) as [chosen Hbu].
  exists chosen. by rewrite <- Heq.
Qed.

(** ** Edge cases *)

Lemma no_selection_fits projects capacity chosen :
  positive_hours projects -> (forall p, p ∈ projects -> capacity < hours p) ->
  chosen ⊆+ projects -> total_hours chosen <= capacity -> chosen = [].
Proof.
  intros Hpos Hbig Hsub Hh. destruct chosen as [|p rest]; [done|]. exfalso.
  assert (Hp : p ∈ projects).
  { eapply elem_of_submseteq; [|exact Hsub]. apply list_elem_of_here. }
  assert (Hrest : positive_hours rest).
  { apply submseteq_sublist_r in Hsub as (s & Hperm & Hs).
    apply (positive_hours_sublist _ _ Hs) in Hpos.
    unfold positive_hours in *. rewrite <- Hperm in Hpos. by inversion Hpos. }
  apply total_hours_nonneg in Hrest. specialize (Hbig p Hp). simpl in Hh. lia.
Qed.

(** X12. When no project fits the capacity on its own (hours strictly
    positive, capacity not negative), each of the four solvers returns
    value 0 and the empty subset. *)
Theorem nothing_fits projects capacity :
  positive_hours projects -> 0 <= capacity ->
  (forall p, p ∈ projects -> capacity < hours p) ->
  greedy_knapsack projects capacity = inr (0, []) /\
  recursive_knapsack projects capacity = (0, []) /\
  memoized_knapsack projects capacity = (0, []) /\
  bottom_up_knapsack projects capacity = inr (0, []).
Proof.
  intros Hpos Hcap Hbig. split; [|split; [|split]].
  - destruct (greedy_knapsack_returns projects capacity Hpos) as (g & chosen & Hg).
    rewrite Hg. apply greedy_knapsack_by_sound in Hg as (Hsub & <- & Hh).
    by rewrite (no_selection_fits projects capacity chosen Hpos Hbig Hsub (Hh Hcap)).
  - unfold recursive_knapsack. destruct (solve projects capacity) as [v chosen] eqn:Hs.
    pose proof (solve_sublist projects capacity) as Hsub.
    pose proof (solve_value projects capacity) as Hv.
    pose proof (solve_hours projects capacity Hcap) as Hh.
    rewrite Hs in Hsub, Hv, Hh. simpl in *.
    apply sublist_submseteq in Hsub.
    rewrite (no_selection_fits projects capacity chosen Hpos Hbig Hsub Hh) in *.
    simpl in Hv. by subst.
  - rewrite memoized_knapsack_eq_recursive. unfold recursive_knapsack.
    destruct (solve projects capacity) as [v chosen] eqn:Hs.
    pose proof (solve_sublist projects capacity) as Hsub.
    pose proof (solve_value projects capacity) as Hv.
    pose proof (solve_hours projects capacity Hcap) as Hh.
    rewrite Hs in Hsub, Hv, Hh. simpl in *.
    apply sublist_submseteq in Hsub.
    rewrite (no_selection_fits projects capacity chosen Hpos Hbig Hsub Hh) in *.
    simpl in Hv. by subst.
  - destruct (bottom_up_knapsack_spec projects capacity Hpos Hcap)
      as (T & recorded & c & _ & _ & _ & _ & -> & Hsub & Hv & Hh).
    apply sublist_submseteq in Hsub.
    rewrite (no_selection_fits projects capacity _ Hpos Hbig Hsub Hh) in *.
    simpl in Hv. by rewrite <- Hv.
Qed.

(** X13. On the empty project list the greedy selector and the two
    recursions return [(0, [])] for every capacity; the bottom-up
    solver does so for a capacity that is not negative and raises
    [IndexError] for a negative one. *)
Theorem empty_project_list capacity :
  greedy_knapsack [] capacity = inr (0, []) /\
  recursive_knapsack [] capacity = (0, []) /\
  memoized_knapsack [] capacity = (0, []) /\
  bottom_up_knapsack [] capacity
    = if 0 <=? capacity then inr (0, []) else inl IndexError.
Proof.
  split; [|split; [|split]]; try reflexivity.
  - unfold greedy_knapsack, greedy_knapsack_by. simpl. by rewrite orb_true_r.
  - destruct (Z.leb_spec 0 capacity) as [Hcap|Hneg].
    + destruct (bottom_up_knapsack_spec [] capacity ltac:(constructor) Hcap)
        as (T & recorded & c & _ & _ & _ & _ & -> & Hsub & _).
      apply sublist_nil_r in Hsub. by rewrite Hsub.
    + unfold bottom_up_knapsack. rewrite build_table_negative by done. cbn [bind].
      pose proof (cell_of_empty_rows (S (length (@nil Project)))) as Hcell.
      set (T := replicate (S (length (@nil Project))) []) in *. clearbody T.
      simpl. by rewrite Hcell.
Qed.

(** X14. With a capacity of zero or below the greedy selector and the
    two recursions return [(0, [])] for every project list, supported
    or not; the bottom-up solver returns [(0, [])] at capacity zero
    when all hours are strictly positive. *)
Theorem nonpositive_capacity_guarded projects capacity :
  capacity <= 0 ->
  greedy_knapsack projects capacity = inr (0, []) /\
  recursive_knapsack projects capacity = (0, []) /\
  memoized_knapsack projects capacity = (0, []) /\
  (capacity = 0 -> positive_hours projects ->
   bottom_up_knapsack projects capacity = inr (0, [])).
Proof.
  intros Hc. split; [by apply greedy_knapsack_nonpositive|].
  split; [by apply recursive_knapsack_nonpositive|].
  split; [by apply memoized_knapsack_nonpositive|].
  intros -> Hpos. by apply bottom_up_knapsack_zero.
Qed.

(** ** The table: order of its entries *)

Lemma dp_step_le projects i c : dp projects i c <= dp projects (S i) c.
Proof.
  simpl. destruct (projects !! i) as [p|]; [|lia].
  destruct (hours p <=? c); [|lia].
  rewrite Z.gtb_ltb. destruct (Z.ltb_spec (dp projects i c)
    (dp projects i (c - hours p) + value p)); lia.
Qed.

Lemma dp_rows_le projects i i' c : (i <= i')%nat -> dp projects i c <= dp projects i' c.
Proof.
  induction 1 as [|k Hle IH]; [lia|]. pose proof (dp_step_le projects k c). lia.
Qed.

Lemma dp_nonneg projects i c : 0 <= dp projects i c.
Proof. apply (dp_rows_le projects 0 i c). lia. Qed.

(** X15. In the table of the bottom-up solver (hours strictly
    positive, capacity not negative) no entry is negative, and entries
    do not decrease from a row to a later row nor from a column to a
    later column: more projects or more capacity never lower the
    value. *)
Theorem table_entries_monotone projects capacity :
  positive_hours projects -> 0 <= capacity ->
  exists T,
    build_table projects capacity = inr T /\
    forall (i i' : nat) c c',
      (i <= i' <= length projects)%nat -> 0 <= c -> c <= c' -> c' <= capacity ->
      exists v w,
        cell T (Z.of_nat i) c = inr v /\ cell T (Z.of_nat i') c' = inr w /\
        0 <= v /\ v <= w.
Proof.
  intros Hpos Hcap.
  destruct (build_table_spec projects capacity Hpos Hcap) as (T & HT & _ & Hrows).
  pose proof (cell_filled projects capacity Hcap T Hrows) as Hcell.
  exists T. split; [done|]. intros i i' c c' Hi Hc Hcc' Hc'.
  exists (dp projects i c), (dp projects i' c').
  split; [apply Hcell; lia|]. split; [apply Hcell; lia|].
  split; [apply dp_nonneg|].
  transitivity (dp projects i' c); [apply dp_rows_le; lia|].
  eapply is_optimum_mono; [exact Hcc' | |]; apply dp_optimum; (done || lia).
Qed.

(** ** The bottom-up solver: exceptions *)

Lemma bind_raises {A B : Type} (m : result A) (k : A -> result B) e :
  bind m k = inl e -> m = inl e \/ exists a, m = inr a /\ k a = inl e.
Proof. destruct m as [e'|a]; simpl; [intros [= ->]; by left | right; by exists a]. Qed.

Lemma py_index_raises {A : Type} (l : list A) z e : py_index l z = inl e -> e = IndexError.
Proof. unfold py_index. repeat case_match; congruence. Qed.

Lemma py_get_raises {A : Type} (l : list A) z e : py_get l z = inl e -> e = IndexError.
Proof.
  unfold py_get. intros H. apply bind_raises in H as [H|(i & _ & H)].
  - by apply py_index_raises in H.
  - destruct (l !! i); congruence.
Qed.

Lemma py_set_raises {A : Type} (l : list A) z a e : py_set l z a = inl e -> e = IndexError.
Proof.
  unfold py_set. intros H. apply bind_raises in H as [H|(i & _ & H)]; [|done].
  by apply py_index_raises in H.
Qed.

Lemma cell_raises T i c e : cell T i c = inl e -> e = IndexError.
Proof.
  unfold cell. intros H. apply bind_raises in H as [H|(row & _ & H)];
    by apply py_get_raises in H.
Qed.

Lemma set_cell_raises T i c v e : set_cell T i c v = inl e -> e = IndexError.
Proof.
  unfold set_cell. intros H. apply bind_raises in H as [H|(row & _ & H)].
  - by apply py_get_raises in H.
  - apply bind_raises in H as [H|(row' & _ & H)]; by apply py_set_raises in H.
Qed.

Lemma for_each_raises {A B : Type} (body : A -> B -> result A) e0 items st e :
  (forall s x e', body s x = inl e' -> e' = e0) ->
  for_each body items st = inl e -> e = e0.
Proof.
  intros Hbody. revert st. induction items as [|x items IH]; intros st; simpl; [done|].
  intros H. apply bind_raises in H as [H|(s & _ & H)]; [by apply Hbody in H | by apply IH in H].
Qed.

Lemma fill_cell_raises p i T c e : fill_cell p i T c = inl e -> e = IndexError.
Proof.
  unfold fill_cell. intros H. apply bind_raises in H as [H|(best & _ & H)].
  { by apply cell_raises in H. }
  apply bind_raises in H as [H|(best' & _ & H)]; [|by apply set_cell_raises in H].
  destruct (hours p <=? c); [|done].
  apply bind_raises in H as [H|(prev & _ & H)]; [by apply cell_raises in H | done].
Qed.

Lemma build_table_raises projects capacity e :
  build_table projects capacity = inl e -> e = IndexError.
Proof.
  unfold build_table. apply for_each_raises. intros T i e'. unfold fill_row.
  intros H. apply bind_raises in H as [H|(p & _ & H)]; [by apply py_get_raises in H|].
  eapply for_each_raises; [|exact H]. intros s c e''. apply fill_cell_raises.
Qed.

Lemma bottom_up_knapsack_raises projects capacity e :
  bottom_up_knapsack projects capacity = inl e -> e = IndexError.
Proof.
  unfold bottom_up_knapsack. intros H.
  apply bind_raises in H as [H|(T & _ & H)]; [by apply build_table_raises in H|].
  apply bind_raises in H as [H|(st & _ & H)].
  - eapply for_each_raises; [|exact H]. intros [chosen c] i e'. unfold backtrack_step.
    intros H'. apply bind_raises in H' as [H'|(here & _ & H')]; [by apply cell_raises in H'|].
    apply bind_raises in H' as [H'|(above & _ & H')]; [by apply cell_raises in H'|].
    case_bool_decide; [|done].
    apply bind_raises in H' as [H'|(p & _ & H')]; [by apply py_get_raises in H' | done].
  - apply bind_raises in H as [H|(best & _ & H)]; [by apply cell_raises in H | done].
Qed.


(** A project with negative hours makes the table read beyond the end
    of a row. *)

Lemma bind_returns {A B : Type} (m : result A) (k : A -> result B) b :
  bind m k = inr b -> exists a, m = inr a /\ k a = inr b.
Proof. destruct m as [e|a]; simpl; [done | by exists a]. Qed.

Lemma for_each_returns_each {A B : Type} (body : A -> B -> result A)
    (Inv : A -> Prop) items st st' :
  Inv st ->
  (forall s x s', Inv s -> body s x = inr s' -> Inv s') ->
  for_each body items st = inr st' ->
  Inv st' /\ forall x, x ∈ items -> exists s s', Inv s /\ body s x = inr s'.
Proof.
  intros Hinit Hstep. revert st Hinit.
  induction items as [|y items IH]; intros st Hinit; simpl.
  - intros [= <-]. split; [done|]. intros x Hx. by apply elem_of_nil in Hx.
  - intros H. apply bind_returns in H as (s1 & Hy & H).
    destruct (IH s1 (Hstep _ _ _ Hinit Hy) H) as [Hfinal Hall].
    split; [done|]. intros x Hx. apply elem_of_cons in Hx as [->|Hx]; [|by apply Hall].
    by exists st, s1.
Qed.

Lemma elem_of_range a b x : a <= x < b -> x ∈ range a b.
Proof.
  intros Hx. unfold range. apply list_elem_of_fmap.
  exists (Z.to_nat (x - a)). split; [lia|]. apply elem_of_seq. lia.
Qed.

Lemma py_get_returns {A : Type} (l : list A) z a :
  py_get l z = inr a -> exists i, py_index l z = inr i /\ l !! i = Some a.
Proof.
  unfold py_get. intros H. apply bind_returns in H as (i & Hi & H).
  exists i. split; [done|]. destruct (l !! i); congruence.
Qed.

Lemma py_get_in_range {A : Type} (l : list A) z a :
  0 <= z -> py_get l z = inr a -> z < Z.of_nat (length l).
Proof.
  intros Hz H. apply py_get_returns in H as (i & Hi & _). unfold py_index in Hi.
  destruct (Z.leb_spec 0 z); [|lia].
  destruct (Z.ltb_spec z (Z.of_nat (length l))); [done|]. simpl in Hi.
  destruct (Z.ltb_spec z 0); [lia | done].
Qed.

Lemma set_cell_shaped n capacity T i c v T' :
  shaped n capacity T -> set_cell T i c v = inr T' -> shaped n capacity T'.
Proof.
  intros [Hlen Hrows]. unfold set_cell. intros H.
  apply bind_returns in H as (row & Hrow & H).
  apply py_get_returns in Hrow as (k & _ & Hk).
  apply bind_returns in H as (row' & Hrow' & H).
  unfold py_set in Hrow', H.
  apply bind_returns in Hrow' as (j & _ & [= <-]).
  apply bind_returns in H as (k' & _ & [= <-]).
  split; [by rewrite length_insert|]. intros m r Hm.
  destruct (decide (k' = m)) as [->|Hne].
  - apply list_lookup_insert_Some in Hm as [(_ & <- & _)|[? _]]; [|done].
    rewrite length_insert. by eapply Hrows.
  - rewrite list_lookup_insert_ne in Hm by done. by eapply Hrows.
Qed.

Lemma fill_cell_shaped n capacity p i T c T' :
  shaped n capacity T -> fill_cell p i T c = inr T' -> shaped n capacity T'.
Proof.
  intros Hshape. unfold fill_cell. intros H.
  apply bind_returns in H as (best & _ & H).
  apply bind_returns in H as (best' & _ & H).
  by eapply set_cell_shaped.
Qed.

Lemma cell_beyond_row n capacity T i z v :
  shaped n capacity T -> 0 <= capacity -> capacity < z -> cell T i z = inr v -> False.
Proof.
  intros [_ Hrows] Hcap Hz. unfold cell. intros H.
  apply bind_returns in H as (row & Hrow & H).
  apply py_get_returns in Hrow as (k & _ & Hk).
  apply py_get_in_range in H; [|lia]. rewrite (Hrows _ _ Hk) in H. lia.
Qed.

Lemma fill_cell_negative_hours n capacity p i T T' :
  shaped n capacity T -> 0 <= capacity -> hours p < 0 ->
  fill_cell p i T capacity = inr T' -> False.
Proof.
  intros Hshape Hcap Hneg. unfold fill_cell. intros H.
  apply bind_returns in H as (best & _ & H).
  apply bind_returns in H as (best' & H & _).
  destruct (Z.leb_spec (hours p) capacity); [|lia].
  apply bind_returns in H as (prev & H & _).
  eapply (cell_beyond_row n capacity T); [done | done | | exact H]. lia.
Qed.

Lemma build_table_negative_hours projects capacity p T :
  0 <= capacity -> p ∈ projects -> hours p < 0 ->
  build_table projects capacity = inr T -> False.
Proof.
  intros Hcap Hp Hneg. unfold build_table. intros H.
  apply list_elem_of_lookup in Hp as [k Hk].
  pose proof (lookup_lt_Some _ _ _ Hk) as Hlt.
  assert (Hcellstep : forall q i s c s',
            shaped (length projects) capacity s -> fill_cell q i s c = inr s' ->
            shaped (length projects) capacity s').
  { intros q i s c s'. apply fill_cell_shaped. }
  assert (Hrowstep : forall s i s',
            shaped (length projects) capacity s -> fill_row projects capacity s i = inr s' ->
            shaped (length projects) capacity s').
  { intros s i s'. unfold fill_row. intros Hs Hrow.
    apply bind_returns in Hrow as (q & _ & Hrow).
    by destruct (for_each_returns_each _ _ _ _ _ Hs (Hcellstep q i) Hrow). }
  destruct (for_each_returns_each _ _ _ _ _ (init_table_shaped _ _) Hrowstep H)
    as [_ Hall].
  destruct (Hall (Z.of_nat (S k)) ltac:(apply elem_of_range; lia)) as (s & s' & Hs & Hrow).
  unfold fill_row in Hrow. replace (Z.of_nat (S k) - 1) with (Z.of_nat k) in Hrow by lia.
  rewrite (py_get_nat _ _ _ Hk) in Hrow. cbn [bind] in Hrow.
  destruct (for_each_returns_each _ _ _ _ _ Hs (Hcellstep p (Z.of_nat (S k))) Hrow)
    as [_ Hcells].
  destruct (Hcells capacity ltac:(apply elem_of_range; lia)) as (t & t' & Ht & Hcell).
  by eapply fill_cell_negative_hours.
Qed.

(** X17. With a capacity that is not negative, a project with negative
    hours anywhere in the list makes the bottom-up solver raise
    [IndexError]: at the last column the table is read beyond the end
    of the row above. *)
Theorem bottom_up_negative_hours_raise projects capacity p :
  0 <= capacity -> p ∈ projects -> hours p < 0 ->
  bottom_up_knapsack projects capacity = inl IndexError.
Proof.
  intros Hcap Hp Hneg.
  destruct (bottom_up_knapsack projects capacity) as [e|res] eqn:Hbu.
  - by rewrite (bottom_up_knapsack_raises _ _ _ Hbu).
  - exfalso. unfold bottom_up_knapsack in Hbu.
    apply bind_returns in Hbu as (T & HT & _).
    by eapply build_table_negative_hours.
Qed.

(** ** The scenario runner *)

(** X18. For a scenario with strictly positive hours and a capacity
    that is not negative, the checks of the runner pass exactly when
    the expected value is the true optimum and the greedy value equals
    it, or differs from it in the scenario labelled "Greedy Falha". *)
Theorem run_scenario_passes_iff label projects capacity expected :
  positive_hours projects -> 0 <= capacity ->
  run_scenario (label, projects, capacity, expected) = inr tt <->
  is_optimum projects capacity expected /\
  exists g chosen,
    greedy_knapsack projects capacity = inr (g, chosen) /\
    if String.eqb label "Greedy Falha" then g <> expected else g = expected.
Proof.
  intros Hpos Hcap.
  destruct (greedy_knapsack_returns projects capacity Hpos) as (g & chosen & Hg).
  destruct (bottom_up_value projects capacity Hpos Hcap) as [chosen' Hbu].
  pose proof (solve_optimum projects capacity Hpos Hcap) as Hopt.
  pose proof (memoized_knapsack_eq_recursive projects capacity) as Hmemo.
  unfold run_scenario. rewrite Hg, Hbu, Hmemo. unfold recursive_knapsack.
  destruct (solve projects capacity) as [v l]. simpl in Hopt |- *.
  unfold assert_that.
  destruct (Z.eqb_spec v expected) as [->|Hne].
  - destruct (String.eqb label "Greedy Falha"); simpl.
    + destruct (Z.eqb_spec g expected) as [->|Hg']; simpl.
      * split; [done|]. intros (_ & g' & ch & [= <- <-] & Hng). done.
      * split; [|done]. intros _. split; [done|]. by exists g, chosen.
    + destruct (Z.eqb_spec g expected) as [->|Hg']; simpl.
      * split; [|done]. intros _. split; [done|]. by exists expected, chosen.
      * split; [done|]. intros (_ & g' & ch & [= <- <-] & Hng). done.
  - split; [done|]. intros [Hexp _]. destruct Hne.
    by eapply is_optimum_unique.
Qed.

(** X19. [run_tests] raises nothing: on its five scenarios no solver
    raises, the three exact solvers return the expected optimum, and
    the greedy selector reaches it everywhere but in "Greedy Falha",
    where it misses it. *)
Theorem run_tests_passes : run_tests = inr tt.
Proof. vm_compute. reflexivity. Qed.

(** ** Which subset on a tie *)

Lemma range_down_cons a b : b < a -> range_down a b = a :: range_down (a - 1) b.
Proof.
  intros Hlt. unfold range_down.
  replace (Z.to_nat (a - b)) with (S (Z.to_nat (a - 1 - b))) by lia.
  cbn [seq map]. rewrite Z.sub_0_r. f_equal.
  rewrite <- seq_shift, map_map. apply map_ext. intros k. lia.
Qed.

(** The walk started at row [m] with nothing recorded only records
    projects among the first [m]. *)
Lemma backtrack_from_row projects capacity T (m : nat) c0 :
  positive_hours projects -> 0 <= capacity ->
  rows_filled projects capacity T (length projects) ->
  (m <= length projects)%nat -> 0 <= c0 <= capacity ->
  exists st,
    for_each (backtrack_step projects T) (range_down (Z.of_nat m) 0) ([], c0) = inr st /\
    rev (fst st) `sublist_of` take m projects.
Proof.
  intros Hpos Hcap Hrows Hm Hc0.
  pose proof (cell_filled projects capacity Hcap T Hrows) as Hcell.
  destruct (for_each_invariant (backtrack_step projects T)
    (fun done st => 0 <= snd st <= capacity /\
       rev (fst st) `sublist_of` drop (m - length done) (take m projects))
    (range_down (Z.of_nat m) 0) ([], c0)) as (st & Hst & _ & Hsub).
  - split; [done|]. apply sublist_nil_l.
  - intros done x rest [chosen c] Hsplit [Hc Hsub]. cbn [fst snd] in Hc, Hsub.
    apply range_down_split in Hsplit as [-> Hlt].
    assert (Hidx : exists k, (m - length done = S k)%nat /\ (k < m)%nat)
      by (exists (m - length done - 1)%nat; lia).
    destruct Hidx as (k & Hk & Hkm). rewrite Hk in Hsub.
    replace (Z.of_nat m - Z.of_nat (length done)) with (Z.of_nat (S k)) by lia.
    destruct (lookup_lt_is_Some_2 projects k ltac:(lia)) as [p Hp].
    assert (Hpk : take m projects !! k = Some p) by (by rewrite lookup_take_lt).
    unfold backtrack_step. replace (Z.of_nat (S k) - 1) with (Z.of_nat k) by lia.
    rewrite (Hcell (S k) c) by (done || lia). cbn [bind].
    rewrite (Hcell k c) by (done || lia). cbn [bind].
    rewrite length_app. simpl. replace (m - (length done + 1))%nat with k by lia.
    rewrite (drop_S _ _ _ Hpk).
    case_bool_decide as Hdiff.
    + apply (dp_differs _ _ _ _ Hp) in Hdiff as [Hfit _].
      pose proof (lookup_positive _ Hpos _ _ Hp) as Hpp.
      rewrite (py_get_nat _ _ _ Hp). cbn [bind].
      eexists. split; [reflexivity|]. simpl. split; [lia|].
      rewrite rev_app_distr. simpl. by apply sublist_skip.
    + eexists. split; [reflexivity|]. simpl. split; [lia|]. by apply sublist_cons.
  - exists st. split; [done|]. rewrite range_down_length in Hsub.
    by replace (m - Z.to_nat (Z.of_nat m - 0))%nat with 0%nat in Hsub by lia.
Qed.

(** X20. On a tie the two kinds of solver drop opposite ends of the
    list (hours strictly positive, capacity not negative): when the
    optimum can be reached without the first project the recursions
    return the pair computed for the rest of the list, and when it can
    be reached without the last project the bottom-up solver returns a
    subset of the projects before it. *)
Theorem tie_drops_first_or_last p projects capacity :
  0 <= capacity ->
  (positive_hours (p :: projects) ->
   fst (solve projects capacity) = fst (solve (p :: projects) capacity) ->
   recursive_knapsack (p :: projects) capacity = solve projects capacity /\
   memoized_knapsack (p :: projects) capacity = solve projects capacity) /\
  (positive_hours (projects ++ [p]) ->
   fst (solve projects capacity) = fst (solve (projects ++ [p]) capacity) ->
   exists v chosen,
     bottom_up_knapsack (projects ++ [p]) capacity = inr (v, chosen) /\
     chosen `sublist_of` projects).
Proof.
  intros Hcap. split.
  - intros Hpos Htie. rewrite memoized_knapsack_eq_recursive. unfold recursive_knapsack.
    assert (Hrec : solve (p :: projects) capacity = solve projects capacity); [|by split].
    destruct (Z_le_gt_dec capacity 0) as [Hz|Hz].
    { by rewrite !solve_base by lia. }
    rewrite solve_cons in * by lia. unfold without_branch in *.
    rewrite Z.gtb_ltb in *.
    destruct (Z.ltb_spec (fst (solve projects capacity))
                (fst (with_branch p projects capacity))); [lia | done].
  - intros Hpos Htie.
    assert (Hposq : positive_hours projects).
    { unfold positive_hours in *. by apply Forall_app in Hpos as [Hpos _]. }
    destruct (build_table_spec (projects ++ [p]) capacity Hpos Hcap)
      as (T & HT & _ & Hrows).
    pose proof (cell_filled _ capacity Hcap T Hrows) as Hcell.
    assert (Hlen : length (projects ++ [p]) = S (length projects))
      by (rewrite length_app; simpl; lia).
    assert (Habove : dp (projects ++ [p]) (length projects) capacity
                     = fst (solve projects capacity)).
    { eapply is_optimum_unique; [|by apply solve_optimum].
      rewrite <- (take_app_length projects [p]) at 1.
      apply dp_optimum; [done | lia | done]. }
    assert (Hhere : dp (projects ++ [p]) (S (length projects)) capacity
                    = fst (solve (projects ++ [p]) capacity)).
    { rewrite <- Hlen. by apply dp_full_solve. }
    destruct (backtrack_from_row (projects ++ [p]) capacity T (length projects) capacity
                Hpos Hcap Hrows ltac:(lia) ltac:(lia)) as ([recorded c] & Hwalk & Hsub).
    rewrite take_app_length in Hsub. simpl in Hsub.
    exists (fst (solve (projects ++ [p]) capacity)), (rev recorded). split; [|done].
    unfold bottom_up_knapsack. rewrite HT. cbn [bind]. rewrite Hlen.
    rewrite range_down_cons by lia. cbn [for_each]. unfold backtrack_step at 1.
    rewrite (Hcell (S (length projects)) capacity) by lia. cbn [bind].
    replace (Z.of_nat (S (length projects)) - 1) with (Z.of_nat (length projects)) by lia.
    rewrite (Hcell (length projects) capacity) by lia. cbn [bind].
    rewrite Habove, Hhere, <- Htie.
    case_bool_decide; [done|]. cbn [bind]. rewrite Hwalk. cbn [bind fst].
    by rewrite Htie.
Qed.

(** ** Instances of the further properties *)


Lemma greedy_leaves_nothing_that_fits_witness :
  exists g chosen skipped,
    greedy_knapsack projects_fail 50 = inr (g, chosen) /\
    chosen ++ skipped ≡ₚ projects_fail /\
    forall p, p ∈ skipped -> 50 - total_hours chosen < hours p.
Proof. apply (greedy_leaves_nothing_that_fits projects_fail 50). each_project. Defined.

Lemma greedy_takes_all_when_all_fit_witness :
  exists chosen,
    greedy_knapsack projects_example 12 = inr (total_value projects_example, chosen) /\
    chosen ≡ₚ projects_example.
Proof.
  apply (greedy_takes_all_when_all_fit projects_example 12); [each_project | simpl; lia].
Defined.


Lemma memo_grows_and_stores_result_witness :
  snd (solve_memo projects_fail 0%nat 50 ∅) !! (0%nat, 50)
    = Some (fst (solve_memo projects_fail 0%nat 50 ∅)).
Proof.
  apply (memo_grows_and_stores_result projects_fail 0%nat 50 ∅);
    [unfold projects_fail; discriminate | lia].
Defined.

Lemma memo_entries_after_run_witness :
  (0 < length projects_fail)%nat /\ 0 < 50 /\
  (220, [mkProject "X2" 100 20; mkProject "X3" 120 30]) = solve (drop 0 projects_fail) 50 /\
  (positive_hours projects_fail -> 50 <= 50).
Proof.
  apply (memo_entries_after_run projects_fail 50 0%nat 50
           (220, [mkProject "X2" 100 20; mkProject "X3" 120 30])).
  vm_compute. reflexivity.
Defined.

Lemma greedy_sound_for_any_key_witness :
  [mkProject "X1" 60 10; mkProject "X2" 100 20] ⊆+ projects_fail /\
  total_value [mkProject "X1" 60 10; mkProject "X2" 100 20] = 160 /\
  (0 <= 50 -> total_hours [mkProject "X1" 60 10; mkProject "X2" 100 20] <= 50).
Proof.
  destruct (greedy_sound_for_any_key ratio Qlt_bool projects_fail 50) as [Hret _].
  apply Hret. vm_compute. reflexivity.
Defined.

Lemma recursion_sound_on_any_input_witness :
  total_hours (snd (recursive_knapsack projects_fail 50)) <= 50.
Proof.
  destruct (recursion_sound_on_any_input projects_fail 50) as (_ & _ & _ & _ & Hh).
  apply Hh. lia.
Defined.

Lemma exact_value_monotone_in_capacity_witness :
  fst (recursive_knapsack projects_fail 30) <= fst (recursive_knapsack projects_fail 50) /\
  fst (memoized_knapsack projects_fail 30) <= fst (memoized_knapsack projects_fail 50) /\
  exists v v' chosen chosen',
    bottom_up_knapsack projects_fail 30 = inr (v, chosen) /\
    bottom_up_knapsack projects_fail 50 = inr (v', chosen') /\ v <= v'.
Proof.
  apply (exact_value_monotone_in_capacity projects_fail 30 50); [each_project | lia | lia].
Defined.

Lemma exact_value_order_independent_witness :
  fst (recursive_knapsack projects_small 9)
    = fst (recursive_knapsack [mkProject "P2" 6 5; mkProject "P1" 5 4] 9) /\
  fst (memoized_knapsack projects_small 9)
    = fst (memoized_knapsack [mkProject "P2" 6 5; mkProject "P1" 5 4] 9) /\
  exists v chosen chosen',
    bottom_up_knapsack projects_small 9 = inr (v, chosen) /\
    bottom_up_knapsack [mkProject "P2" 6 5; mkProject "P1" 5 4] 9 = inr (v, chosen').
Proof.
  apply (exact_value_order_independent projects_small
           [mkProject "P2" 6 5; mkProject "P1" 5 4] 9);
    [apply perm_swap | each_project | lia].
Defined.

Lemma exact_value_when_all_fit_witness :
  fst (recursive_knapsack projects_example 12) = total_value projects_example /\
  fst (memoized_knapsack projects_example 12) = total_value projects_example /\
  exists chosen,
    bottom_up_knapsack projects_example 12 = inr (total_value projects_example, chosen).
Proof.
  apply (exact_value_when_all_fit projects_example 12);
    [each_project | each_project | simpl; lia].
Defined.

Lemma nothing_fits_witness :
  greedy_knapsack projects_small 3 = inr (0, []) /\
  recursive_knapsack projects_small 3 = (0, []) /\
  memoized_knapsack projects_small 3 = (0, []) /\
  bottom_up_knapsack projects_small 3 = inr (0, []).
Proof.
  apply (nothing_fits projects_small 3); [each_project | lia |].
  intros p Hp. unfold projects_small in Hp. in_projects Hp.
Defined.

Lemma nonpositive_capacity_guarded_witness :
  greedy_knapsack projects_small 0 = inr (0, []) /\
  recursive_knapsack projects_small 0 = (0, []) /\
  memoized_knapsack projects_small 0 = (0, []) /\
  (0 = 0 -> positive_hours projects_small ->
   bottom_up_knapsack projects_small 0 = inr (0, [])).
Proof. apply (nonpositive_capacity_guarded projects_small 0). lia. Defined.

Lemma table_entries_monotone_witness :
  exists T,
    build_table projects_fail 50 = inr T /\
    forall (i i' : nat) c c',
      (i <= i' <= length projects_fail)%nat -> 0 <= c -> c <= c' -> c' <= 50 ->
      exists v w,
        cell T (Z.of_nat i) c = inr v /\ cell T (Z.of_nat i') c' = inr w /\
        0 <= v /\ v <= w.
Proof. apply (table_entries_monotone projects_fail 50); [each_project | lia]. Defined.


Lemma bottom_up_negative_hours_raise_witness :
  bottom_up_knapsack [mkProject "P1" 5 4; mkProject "N" 5 (-1)] 3 = inl IndexError.
Proof.
  apply (bottom_up_negative_hours_raise _ 3 (mkProject "N" 5 (-1)));
    [lia | | simpl; lia].
  apply list_elem_of_further, list_elem_of_here.
Defined.

Lemma run_scenario_passes_iff_witness :
  run_scenario ("Greedy Falha"%string, projects_fail, 50, 220) = inr tt <->
  is_optimum projects_fail 50 220 /\
  exists g chosen,
    greedy_knapsack projects_fail 50 = inr (g, chosen) /\
    if String.eqb "Greedy Falha" "Greedy Falha" then g <> 220 else g = 220.
Proof.
  apply (run_scenario_passes_iff "Greedy Falha" projects_fail 50 220); [each_project | lia].
Defined.

Lemma tie_drops_first_or_last_witness :
  (recursive_knapsack projects_tie 2 = solve [mkProject "B" 5 2] 2 /\
   memoized_knapsack projects_tie 2 = solve [mkProject "B" 5 2] 2) /\
  exists v chosen,
    bottom_up_knapsack projects_tie 2 = inr (v, chosen) /\
    chosen `sublist_of` [mkProject "A" 5 2].
Proof.
  destruct (tie_drops_first_or_last (mkProject "A" 5 2) [mkProject "B" 5 2] 2 ltac:(lia))
    as [Hfirst _].
  destruct (tie_drops_first_or_last (mkProject "B" 5 2) [mkProject "A" 5 2] 2 ltac:(lia))
    as [_ Hlast].
  split.
  - apply Hfirst; [each_project | reflexivity].
  - apply Hlast; [each_project | reflexivity].
Defined.
